(** * handleGet.js: the trace ID unifier and the notation normalizer

    A shallow embedding of [Express-Server/handlers/handleGet.js].

    Conventions of the embedding.
    - A JavaScript string is a [string]: a sequence of code units, here the
      code units below 256.
    - A JavaScript number that counts (the two id counters) is an [N]; the
      counters stay far below 2^53, where [++] on a double is exact and
      [String] prints plain decimal digits.
    - A plain JavaScript object used as a dictionary is the list of its own
      enumerable properties in enumeration order ([jsobj]); property
      creation follows the engine's ordering rule (array-index keys first,
      ascending; then the other keys in creation order). Identifiers are
      string-encoded integers, so no key names a property that a plain
      object inherits, and reading [o[k]] is a lookup among the own
      properties.
    - A call that may throw returns a [completion].
    - The handler is given [lastWrittenNumbers] as the list of numbers that
      [Array.from(req.query.lastWrittenNumbers, Number)] produces; sequence
      numbers are non-negative integers. *)

From Stdlib Require Import NArith Ascii String DecimalString DecimalN.
From Stdlib Require Import Lia.
From stdpp Require Import base option list sorting.

Local Open Scope string_scope.
Local Open Scope N_scope.
Local Open Scope list_scope.

(** ** Completions: calls that may throw *)

Inductive js_error :=
| TypeError                (* a property read on [null] or [undefined] *)
| Error (message : string) (* [new Error(message)] *)
| Rejected.                (* a rejection coming from a collaborator *)

Inductive completion (A : Type) :=
| Normal (a : A)
| Throw (e : js_error).
Global Arguments Normal {A} _.
Global Arguments Throw {A} _.

Definition bind {A B} (c : completion A) (f : A -> completion B)
  : completion B :=
  match c with
  | Normal a => f a
  | Throw e => Throw e
  end.

Notation "'let*' x := c 'in' k" := (bind c (fun x => k))
  (at level 10, x name, c at level 100, k at level 200).

(** [Promise.all] over settled promises: the values in order, or a
    rejection as soon as one promise is rejected. *)
Fixpoint promise_all {A} (ps : list (completion A)) : completion (list A) :=
  match ps with
  | [] => Normal []
  | p :: ps' =>
      let* a := p in
      let* rest := promise_all ps' in
      Normal (a :: rest)
  end.

(** ** Numbers as property keys and identifiers *)

(** [String(n)] for a non-negative integer [n]: its decimal digits. *)
Definition ToString (n : N) : string :=
  NilEmpty.string_of_uint (N.to_uint n).

(** Array-index keys: the canonical decimal strings of 0 .. 2^32 - 2. *)
Definition is_array_index (k : string) : option N :=
  match NilEmpty.uint_of_string k with
  | Some d =>
      let n := N.of_uint d in
      if (String.eqb (ToString n) k && (n <? 4294967295))%bool
      then Some n else None
  | None => None
  end.

(** Consecutive counter values: [n] values from [c] on. *)
Fixpoint Nseq (c : N) (n : nat) : list N :=
  match n with
  | O => []
  | S n' => c :: Nseq (c + 1) n'
  end.

(** ** Plain objects as ordered property lists *)

Abbreviation jsobj V := (list (string * V)).

Section JsObject.
Context {V : Type}.

Definition own_keys (o : jsobj V) : list string := map fst o.

Definition hasOwnProperty (o : jsobj V) (k : string) : bool :=
  existsb (String.eqb k) (own_keys o).

(** [o[k]] on an object whose keys never name an inherited property:
    [None] stands for [undefined]. *)
Fixpoint obj_get (o : jsobj V) (k : string) : option V :=
  match o with
  | [] => None
  | (k', v) :: o' => if String.eqb k k' then Some v else obj_get o' k
  end.

(** Does a new key [k] enumerate before the existing key [k']? *)
Definition key_before (k k' : string) : bool :=
  match is_array_index k, is_array_index k' with
  | Some n, Some n' => n <? n'
  | Some _, None => true
  | None, _ => false
  end.

Fixpoint obj_update (k : string) (v : V) (o : jsobj V) : jsobj V :=
  match o with
  | [] => []
  | (k', v') :: o' =>
      if String.eqb k k' then (k', v) :: o' else (k', v') :: obj_update k v o'
  end.

Fixpoint obj_insert (k : string) (v : V) (o : jsobj V) : jsobj V :=
  match o with
  | [] => [(k, v)]
  | (k', v') :: o' =>
      if key_before k k' then (k, v) :: o else (k', v') :: obj_insert k v o'
  end.

(** [o[k] = v]: an existing property keeps its place, a new one is
    created at the place the enumeration order gives it. *)
Definition obj_set (k : string) (v : V) (o : jsobj V) : jsobj V :=
  if hasOwnProperty o k then obj_update k v o else obj_insert k v o.
End JsObject.


(** The order in which the properties of an object enumerate: a key
    that is an array index comes before every larger array index and
    before every key that is not one. *)
Definition enumerates_before (k k' : string) : Prop :=
  key_before k k' = true \/ is_array_index k' = None.

Definition enumeration_order {V} (o : jsobj V) : Prop :=
  StronglySorted enumerates_before (own_keys o).

(** ** Data model *)

Section Unifier.
(** What a trace and a group carry besides the fields the unifier
    touches is opaque to it. *)
Context {TracePayload GroupPayload : Type}.

Record Trace := mkTrace { id : string; trace_rest : TracePayload }.

(** [R] is the type of a reference: [string] on input, [option string]
    after the rewrite ([None] is [undefined]). *)
Record TraceGroup (R : Type) :=
  mkTraceGroup { traceDataRefs : list R; group_rest : GroupPayload }.
Global Arguments mkTraceGroup {R} _ _.
Global Arguments traceDataRefs {R} _.
Global Arguments group_rest {R} _.

Record InkML (R : Type) :=
  mkInkML { traces : list Trace; traceGroups : jsobj (TraceGroup R) }.
Global Arguments mkInkML {R} _ _.
Global Arguments traces {R} _.
Global Arguments traceGroups {R} _.

(** ** The unifier *)

(** [traces.map(trace => { ...trace, id: String(traceIdCounter++) })]
    together with the counter after the map. *)
Fixpoint assignUniqueTraceIDs (traces : list Trace) (traceIdCounter : N)
  : list Trace * N :=
  match traces with
  | [] => ([], traceIdCounter)
  | trace :: rest =>
      let newTrace := mkTrace (ToString traceIdCounter) (trace_rest trace) in
      let '(updatedTraces, counter) :=
        assignUniqueTraceIDs rest (traceIdCounter + 1) in
      (newTrace :: updatedTraces, counter)
  end.

(** One step of the [reduce] of [modifyIDsToUnique]:
    [acc[inkmlData.traces[i].id] = trace.id]. *)
Definition recordChange (acc : jsobj string) (p : Trace * Trace)
  : jsobj string :=
  obj_set (id p.1) (id p.2) acc.

Definition traceIdChanges (oldTraces updatedTraces : list Trace)
  : jsobj string :=
  fold_left recordChange (zip oldTraces updatedTraces) [].

(** [groupData] of [updateTraceDataRefs]: a copy of the group whose
    references are looked up in the map of changes. *)
Definition rewriteRefs (traceIdChanges : jsobj string)
    (data : TraceGroup string) : TraceGroup (option string) :=
  mkTraceGroup (map (fun ref => obj_get traceIdChanges ref)
                    (traceDataRefs data))
               (group_rest data).

(** One step of the loop of [updateTraceDataRefs]:
    [updatedTraceGroups[group] = groupData]. *)
Definition rewriteGroup (traceIdChanges : jsobj string)
    (updatedTraceGroups : jsobj (TraceGroup (option string)))
    (e : string * TraceGroup string) : jsobj (TraceGroup (option string)) :=
  obj_set e.1 (rewriteRefs traceIdChanges e.2) updatedTraceGroups.

Definition updateTraceDataRefs (traceGroups : jsobj (TraceGroup string))
    (traceIdChanges : jsobj string) : jsobj (TraceGroup (option string)) :=
  fold_left (rewriteGroup traceIdChanges) traceGroups [].

(** One step of the loop of [assignUniqueTraceGroupIDs]; the state is
    [updatedTraceGroups] and [groupIdCounter]. *)
Definition numberGroup {R} (st : jsobj (TraceGroup R) * N)
    (e : string * TraceGroup R) : jsobj (TraceGroup R) * N :=
  (obj_set (ToString st.2) e.2 st.1, st.2 + 1).

Definition assignUniqueTraceGroupIDs {R} (traceGroups : jsobj (TraceGroup R))
    (groupIdCounter : N) : jsobj (TraceGroup R) * N :=
  fold_left numberGroup traceGroups ([], groupIdCounter).

(** The body of the [for (const outFile in modifiedInfo)] loop for one
    document, with both counters threaded through. *)
Definition unifyDocument (inkmlData : InkML string)
    (traceIdCounter groupIdCounter : N)
  : InkML (option string) * N * N :=
  let '(updatedTraces, newTraceIdCounter) :=
    assignUniqueTraceIDs (traces inkmlData) traceIdCounter in
  let changes := traceIdChanges (traces inkmlData) updatedTraces in
  let updatedTraceGroups :=
    updateTraceDataRefs (traceGroups inkmlData) changes in
  let '(finalTraceGroups, newGroupIdCounter) :=
    assignUniqueTraceGroupIDs updatedTraceGroups groupIdCounter in
  (mkInkML updatedTraces finalTraceGroups,
   newTraceIdCounter, newGroupIdCounter).

Fixpoint unifyFrom (entries : jsobj (InkML string))
    (traceIdCounter groupIdCounter : N) : jsobj (InkML (option string)) :=
  match entries with
  | [] => []
  | (outFile, inkmlData) :: rest =>
      let '(doc, tc, gc) :=
        unifyDocument inkmlData traceIdCounter groupIdCounter in
      (outFile, doc) :: unifyFrom rest tc gc
  end.

(** The deep copy [JSON.parse(JSON.stringify(_))] is the value itself
    in a pure model; both counters start at 1. *)
Definition modifyIDsToUnique (outFileAllInfo : jsobj (InkML string))
  : jsobj (InkML (option string)) :=
  unifyFrom outFileAllInfo 1 1.

(** The call [modifyIDsToUnique(outFilesAllInfo)] as a completion. The
    body has no [throw] statement, and on data of the shape above it reads
    no property of [null] or [undefined]: the call completes normally. *)
Definition call_modifyIDsToUnique (outFileAllInfo : jsobj (InkML string))
  : completion (jsobj (InkML (option string))) :=
  Normal (modifyIDsToUnique outFileAllInfo).

(** All traces, and all groups with their identifiers, of a batch. *)
Definition all_traces {R} (b : jsobj (InkML R)) : list Trace :=
  concat (map (fun e => traces (snd e)) b).

Definition all_groups {R} (b : jsobj (InkML R))
  : list (string * TraceGroup R) :=
  concat (map (fun e => traceGroups (snd e)) b).
End Unifier.

Global Arguments Trace : clear implicits.
Global Arguments TraceGroup : clear implicits.
Global Arguments InkML : clear implicits.

(** The number of traces, and of groups, in a batch. *)
Definition trace_count {TP GP R} (b : jsobj (InkML TP GP R)) : nat :=
  sum_list (map (fun e => List.length (traces e.2)) b).

Definition group_count {TP GP R} (b : jsobj (InkML TP GP R)) : nat :=
  sum_list (map (fun e => List.length (traceGroups e.2)) b).

(** The [traceGroups] of every document is an object: its keys are
    distinct. *)
Definition object_groups {TP GP R} (b : jsobj (InkML TP GP R)) : Prop :=
  Forall (fun e => NoDup (own_keys (traceGroups e.2))) b.

(** [ref] names a trace of [doc]. *)
Definition local_reference {TP GP} (doc : InkML TP GP string) (ref : string)
  : Prop :=
  ref ∈ map id (traces doc).

(** Every reference of every group names a trace of its own document. *)
Definition references_local {TP GP} (b : jsobj (InkML TP GP string)) : Prop :=
  Forall (fun e =>
            Forall (fun g => Forall (local_reference e.2) (traceDataRefs g.2))
                   (traceGroups e.2))
         b.

(** The object that results from creating the properties [entries] one
    after the other in an empty object, as a sequence of assignments
    [o[k] = v] does, and as [JSON.parse] does for the members of the text
    it reads. *)
Definition object_of {V} (entries : list (string * V)) : jsobj V :=
  fold_left (fun o e => obj_set e.1 e.2 o) entries [].

(** A property whose key is no array index: these enumerate after the
    array indices, in the order they were created. *)
Definition created_order {V} (e : string * V) : Prop :=
  is_array_index e.1 = None.

#[global] Instance created_order_dec {V} (e : string * V) :
  Decision (created_order e) := option_eq_None_dec (is_array_index e.1).

(** ** Strings *)

Definition code_in (c : ascii) (codes : list N) : bool :=
  existsb (N.eqb (N_of_ascii c)) codes.

(** [\s], which is also what [trim] strips. *)
Definition is_space (c : ascii) : bool := code_in c [9; 10; 11; 12; 13; 32; 160].

(** [.] matches anything but a line terminator. *)
Definition dot (c : ascii) : bool := negb (code_in c [10; 13]).

Definition is_char (a c : ascii) : bool := Ascii.eqb a c.

Fixpoint trimStart (s : string) : string :=
  match s with
  | String c s' => if is_space c then trimStart s' else s
  | EmptyString => EmptyString
  end.

Fixpoint trimEnd (s : string) : string :=
  match s with
  | String c s' =>
      match trimEnd s' with
      | EmptyString => if is_space c then EmptyString else String c EmptyString
      | t => String c t
      end
  | EmptyString => EmptyString
  end.

Definition trim (s : string) : string := trimEnd (trimStart s).

(** [s.slice(n)] for [n >= 0]. *)
Fixpoint slice (n : nat) (s : string) : string :=
  match n, s with
  | S n', String _ s' => slice n' s'
  | _, _ => s
  end.

(** ** Regular expressions

    The fragment of the pattern language the handler uses: literals,
    classes, sequence, alternation, capturing groups, and quantifiers on a
    one-character atom. The matcher is the backtracking matcher of the
    language: alternatives left to right, greedy quantifiers longest first,
    lazy ones shortest first. *)

Inductive regex :=
| Lit (l : string)
| Cls (p : ascii -> bool)
| Seq (r1 r2 : regex)
| Alt (r1 r2 : regex)
| Group (i : nat) (r : regex)
| Star (greedy : bool) (p : ascii -> bool)
| Plus (greedy : bool) (p : ascii -> bool)
| Opt (p : ascii -> bool)
| Eos.

Definition captures := list (nat * string).

(** [m[i]]; [None] is [undefined]. *)
Fixpoint capture (caps : captures) (i : nat) : option string :=
  match caps with
  | [] => None
  | (j, g) :: caps' => if Nat.eqb i j then Some g else capture caps' i
  end.

Fixpoint strip_literal (l s : string) : option string :=
  match l, s with
  | EmptyString, _ => Some s
  | String a l', String c s' => if Ascii.eqb a c then strip_literal l' s' else None
  | String _ _, EmptyString => None
  end.

(** The text between a position [s] and a later position [s']. *)
Definition consumed (s s' : string) : string :=
  substring 0 (String.length s - String.length s') s.

Section Matcher.
Context {A : Type}.

Fixpoint star_greedy (p : ascii -> bool) (k : string -> option A)
    (s : string) : option A :=
  match s with
  | String c s' =>
      if p c then
        match star_greedy p k s' with
        | Some z => Some z
        | None => k s
        end
      else k s
  | EmptyString => k s
  end.

Fixpoint star_lazy (p : ascii -> bool) (k : string -> option A)
    (s : string) : option A :=
  match k s with
  | Some z => Some z
  | None =>
      match s with
      | String c s' => if p c then star_lazy p k s' else None
      | EmptyString => None
      end
  end.

Definition star (greedy : bool) := if greedy then star_greedy else star_lazy.

Fixpoint matcher (r : regex) (s : string) (caps : captures)
    (k : string -> captures -> option A) : option A :=
  match r with
  | Lit l =>
      match strip_literal l s with
      | Some s' => k s' caps
      | None => None
      end
  | Cls p =>
      match s with
      | String c s' => if p c then k s' caps else None
      | EmptyString => None
      end
  | Seq r1 r2 => matcher r1 s caps (fun s1 caps1 => matcher r2 s1 caps1 k)
  | Alt r1 r2 =>
      match matcher r1 s caps k with
      | Some z => Some z
      | None => matcher r2 s caps k
      end
  | Group i r =>
      matcher r s caps (fun s1 caps1 => k s1 ((i, consumed s s1) :: caps1))
  | Star greedy p => star greedy p (fun s1 => k s1 caps) s
  | Plus greedy p =>
      match s with
      | String c s' => if p c then star greedy p (fun s1 => k s1 caps) s' else None
      | EmptyString => None
      end
  | Opt p =>
      match s with
      | String c s' =>
          if p c then
            match k s' caps with
            | Some z => Some z
            | None => k s caps
            end
          else k s caps
      | EmptyString => k s caps
      end
  | Eos =>
      match s with
      | EmptyString => k s caps
      | String _ _ => None
      end
  end.
End Matcher.

(** A match anchored at the start of [s]: the rest of the input after
    the match, and the captures. *)
Definition match_at (r : regex) (s : string) : option (string * captures) :=
  matcher r s [] (fun s' caps => Some (s', caps)).

Record match_result := mkMatch
  { m_index : nat;          (* where the match starts *)
    m_text : string;        (* [m[0]] *)
    m_caps : captures;      (* [m[1]], [m[2]], ... *)
    m_after : string }.     (* the input after the match *)

(** [regex.exec(s)] and [s.match(regex)] without the [g] flag: the
    leftmost match, or [None] for [null]. *)
Fixpoint exec_from (r : regex) (s : string) (i : nat) : option match_result :=
  match match_at r s with
  | Some (s', caps) => Some (mkMatch i (consumed s s') caps s')
  | None =>
      match s with
      | String _ s1 => exec_from r s1 (S i)
      | EmptyString => None
      end
  end.

Definition exec (r : regex) (s : string) : option match_result :=
  exec_from r s 0.

(** [s.replace(regex, f)] without the [g] flag. *)
Fixpoint replace_first (r : regex) (f : string -> captures -> string)
    (s : string) : string :=
  match match_at r s with
  | Some (s', caps) => (f (consumed s s') caps ++ s')%string
  | None =>
      match s with
      | String c s1 => String c (replace_first r f s1)
      | EmptyString => EmptyString
      end
  end.

(** [s.replace(regex, f)] with the [g] flag: matches are looked for from
    left to right, each search starting where the previous match ended (one
    character further after an empty match). [skip] counts the characters
    of the current match still to be passed over. *)
Fixpoint replace_all_go (r : regex) (f : string -> captures -> string)
    (skip : nat) (s : string) : string :=
  match skip with
  | S n =>
      match s with
      | String _ s1 => replace_all_go r f n s1
      | EmptyString => EmptyString
      end
  | O =>
      match match_at r s with
      | Some (s', caps) =>
          let m := consumed s s' in
          (f m caps ++
           match s with
           | String c s1 =>
               match String.length m with
               | O => String c (replace_all_go r f 0 s1)
               | S n => replace_all_go r f n s1
               end
           | EmptyString => EmptyString
           end)%string
      | None =>
          match s with
          | String c s1 => String c (replace_all_go r f 0 s1)
          | EmptyString => EmptyString
          end
      end
  end.

Definition replace_all (r : regex) (f : string -> captures -> string)
    (s : string) : string :=
  replace_all_go r f 0 s.

Fixpoint string_forall (p : ascii -> bool) (s : string) : bool :=
  match s with
  | String c s' => p c && string_forall p s'
  | EmptyString => true
  end.

(** What a pattern matches, read declaratively: from position [s] with
    captures [caps] to position [s'] with captures [caps']. *)
Fixpoint matches (r : regex) (s : string) (caps : captures)
    (s' : string) (caps' : captures) : Prop :=
  match r with
  | Lit l => s = (l ++ s')%string /\ caps' = caps
  | Cls p => (exists c, s = String c s' /\ p c = true) /\ caps' = caps
  | Seq r1 r2 =>
      exists s1 caps1, matches r1 s caps s1 caps1 /\ matches r2 s1 caps1 s' caps'
  | Alt r1 r2 => matches r1 s caps s' caps' \/ matches r2 s caps s' caps'
  | Group i r =>
      exists caps1, matches r s caps s' caps1 /\ caps' = (i, consumed s s') :: caps1
  | Star _ p =>
      (exists m, s = (m ++ s')%string /\ string_forall p m = true) /\ caps' = caps
  | Plus _ p =>
      (exists c m, s = String c (m ++ s')%string /\ p c = true
              /\ string_forall p m = true) /\ caps' = caps
  | Opt p => (s' = s \/ exists c, s = String c s' /\ p c = true) /\ caps' = caps
  | Eos => s = EmptyString /\ s' = EmptyString /\ caps' = caps
  end.

(** [needle] occurs in [s]. *)
Definition occurs (needle s : string) : Prop :=
  exists pre post, s = (pre ++ needle ++ post)%string.

(** The pattern [r] matches somewhere in [s]. *)
Definition pattern_found (r : regex) (s : string) : Prop :=
  exists pre t s' caps, s = (pre ++ t)%string /\ matches r t [] s' caps.

(** [s.includes(needle)]. *)
Fixpoint includes (needle s : string) : bool :=
  match strip_literal needle s with
  | Some _ => true
  | None =>
      match s with
      | String _ s' => includes needle s'
      | EmptyString => false
      end
  end.

(** ** The recognizer output and the notation normalizer *)

(** The pattern of [extractLatexExpression]: the literal [LaTeX:], then
    [\s*], then group 1 around a greedy [.*]. *)
Definition latexRegex : regex :=
  Seq (Lit "LaTeX:") (Seq (Star true is_space) (Group 1 (Star true dot))).

Definition extractLatexExpression (input : string) : completion string :=
  match exec latexRegex input with
  | None => Throw TypeError
  | Some matches =>
      match capture (m_caps matches) 1 with
      | Some g => Normal (trim g)
      | None => Throw TypeError
      end
  end.

(** The global pattern of the [COMMA] replacement: the seven characters
    space, [COMMA], space. *)
Definition commaRegex : regex := Lit " COMMA ".

Definition replaceComma (latexExpression : string) : string :=
  replace_all commaRegex (fun _ _ => ", ") latexExpression.

(** The hint pattern. Group 1 is the operator, one of [=], [\lt], [\gt],
    [\leq], [\geq]; then the two literal characters [_{]; then group 2, an
    alternation of (a) group 3: the literal [\sum], [\s*], and group 4
    around a lazy [.*?], and (b) group 5: the literal [\{], group 6 around a
    lazy [.+?], the literal [\}], followed by an optional [3]; then the
    literal closing brace. The optional [3] belongs to alternative (b)
    only. *)
Definition hintRegex : regex :=
  Seq (Group 1 (Alt (Lit "=") (Alt (Lit "\lt") (Alt (Lit "\gt")
                (Alt (Lit "\leq") (Lit "\geq"))))))
 (Seq (Lit "_{")
 (Seq (Group 2
        (Alt (Group 3 (Seq (Lit "\sum") (Seq (Star true is_space)
                                             (Group 4 (Star false dot)))))
             (Seq (Group 5 (Seq (Lit "\{") (Seq (Group 6 (Plus false dot))
                                                (Lit "\}"))))
                  (Opt (is_char "3")))))
      (Lit "}"))).

(** The pattern of the inner replace: a [3] at the end of the input. *)
Definition trailing3Regex : regex := Seq (Lit "3") Eos.

(** A captured group inside a template literal. *)
Definition interpolate (g : option string) : string :=
  match g with
  | Some s => s
  | None => "undefined"
  end.

Definition truthy (g : option string) : bool :=
  match g with
  | Some (String _ _) => true
  | _ => false
  end.

(** The body of the correction loop for one odd-indexed result. *)
Definition correctHint (result : string) : completion string :=
  match exec hintRegex result with
  | None => Normal result
  | Some m =>
      let operator := capture (m_caps m) 1 in
      let* hint :=
        if truthy (capture (m_caps m) 6)
        then Normal (trim (interpolate (capture (m_caps m) 6)))
        else match capture (m_caps m) 4 with
             | Some g =>
                 Normal (trim (replace_first trailing3Regex (fun _ _ => "") g))
             | None => Throw TypeError
             end in
      Normal (interpolate operator ++ "\{" ++ hint ++ "\}")%string
  end.

(** [for (let [index, result] of results.entries())]: even indices are
    skipped. *)
Fixpoint correctHints (index : nat) (results : list string)
  : completion (list string) :=
  match results with
  | [] => Normal []
  | result :: rest =>
      let* r := if Nat.even index then Normal result else correctHint result in
      let* rest' := correctHints (S index) rest in
      Normal (r :: rest')
  end.

(** First cleanup pattern (global): the two characters [=_]. *)
Definition underscoreRegex : regex := Lit "=_".

(** Second cleanup pattern (global): the literal [={\{], group 1 around a
    lazy [.+?], the literal [\}}]. *)
Definition extraBracesRegex : regex :=
  Seq (Lit "={\{") (Seq (Group 1 (Plus false dot)) (Lit "\}}")).

(** Third cleanup pattern (global): group 1, an underscore followed by one
    of the five operators. *)
Definition operatorUnderscoreRegex : regex :=
  Group 1 (Alt (Lit "_=") (Alt (Lit "_\lt") (Alt (Lit "_\gt")
          (Alt (Lit "_\leq") (Lit "_\geq"))))).

(** The final [results.map]. *)
Definition cleanup (result : string) : string :=
  replace_all operatorUnderscoreRegex (fun m _ => slice 1 m)
    (replace_all extraBracesRegex
       (fun _ caps => ("={" ++ match capture caps 1 with
                               | Some g => g
                               | None => EmptyString
                               end ++ "}")%string)
       (replace_all underscoreRegex (fun _ _ => "=") result)).

Definition normalize (results : list string) : completion (list string) :=
  let* corrected := correctHints 0 results in
  Normal (map cleanup corrected).

(** Left-to-right replacement of the non-overlapping occurrences of the
    seven characters space, [COMMA], space by a comma and a space; every
    other character is kept. *)
Inductive comma_replaced : string -> string -> Prop :=
| cr_end : comma_replaced "" ""
| cr_hit s t :
    comma_replaced s t ->
    comma_replaced (" COMMA " ++ s)%string (", " ++ t)%string
| cr_skip c s t :
    (forall rest, String c s <> (" COMMA " ++ rest)%string) ->
    comma_replaced s t -> comma_replaced (String c s) (String c t).

(** ** The request handler *)

(** What running one recognizer command gives: the promise of
    [util.promisify(exec)(command)] is rejected, or resolves to the two
    output channels. *)
Inductive ExecResult :=
| ExecRejected
| ExecDone (stdout stderr : string).

Inductive response :=
| Sent (results : list string)   (* [res.send(results)] *)
| Status500 (body : string).     (* [res.status(500).send(body)] *)

Section Handler.
Context {TracePayload GroupPayload : Type}.

(** The collaborators of the handler: the constant [PATH] of
    utils/constants, the recognizer process, and the two functions of
    utils/fileUtils. [extractAllInformation] is awaited;
    [createFileFromInfo] is called and not awaited, so its completion here
    is that of the call itself. *)
Variable PATH : string.
Variable seshat : string -> ExecResult.
Variable extractAllInformation :
  list N -> completion (jsobj (InkML TracePayload GroupPayload string)).
Variable createFileFromInfo :
  jsobj (InkML TracePayload GroupPayload (option string)) -> completion unit.

(** The template literal of [buildSeshatCommands]. *)
Definition seshatCommand (number : N) : string :=
  ("cd " ++ PATH ++ " && ./seshat -c Config/CONFIG -i temp/temp"
   ++ ToString number ++ ".inkml -o out/out" ++ ToString number
   ++ ".inkml -r render.pgm -d out.dot")%string.

Definition buildSeshatCommands (lastWrittenNumbers : list N) : list string :=
  map seshatCommand lastWrittenNumbers.

(** The callback given to [seshatCommands.map]. *)
Definition recognize (command : string) : completion string :=
  match seshat command with
  | ExecRejected => Throw Rejected
  | ExecDone stdout stderr =>
      match stderr with
      | String _ _ => Throw (Error "Internal Server Error")
      | EmptyString =>
          let* latexExpression := extractLatexExpression stdout in
          Normal (replaceComma latexExpression)
      end
  end.

Definition assembleSingleInkML (lastWrittenNumbers : list N)
  : completion unit :=
  let* outFilesAllInfo := extractAllInformation lastWrittenNumbers in
  let* uniqueIDsInfo := call_modifyIDsToUnique outFilesAllInfo in
  createFileFromInfo uniqueIDsInfo.

(** The [try] block of the handler. *)
Definition handleGet_try (lastWrittenNumbers : list N)
  : completion (list string) :=
  let seshatCommands := buildSeshatCommands lastWrittenNumbers in
  let* results := promise_all (map recognize seshatCommands) in
  let* results := normalize results in
  let* _ := assembleSingleInkML lastWrittenNumbers in
  Normal results.

Definition handleGet (lastWrittenNumbers : list N) : response :=
  match handleGet_try lastWrittenNumbers with
  | Normal results => Sent results
  | Throw _ => Status500 "Internal Server Error"
  end.

(** The invocation for [number] signals an error: the process fails, or
    writes to its error channel. *)
Definition invocation_errors (number : N) : Prop :=
  match seshat (seshatCommand number) with
  | ExecRejected => True
  | ExecDone _ stderr => stderr <> ""
  end.

(** The invocation for [number] answers: nothing on the error channel,
    and an output with the [LaTeX:] marker. *)
Definition invocation_answers (number : N) : Prop :=
  exists stdout,
    seshat (seshatCommand number) = ExecDone stdout ""
    /\ occurs "LaTeX:" stdout.
End Handler.

(** ** Shapes of strings *)

Definition first_char (s : string) : option ascii :=
  match s with
  | String c _ => Some c
  | EmptyString => None
  end.

Fixpoint last_char (s : string) : option ascii :=
  match s with
  | String c EmptyString => Some c
  | String _ s' => last_char s'
  | EmptyString => None
  end.

(** The text neither starts nor ends with a character of the class. *)
Definition no_margin (p : ascii -> bool) (s : string) : Prop :=
  (forall c, first_char s = Some c -> p c = false)
  /\ (forall c, last_char s = Some c -> p c = false).

Definition is_digit (c : ascii) : bool :=
  code_in c [48; 49; 50; 51; 52; 53; 54; 55; 56; 57].

(** The five operators of the hint pattern. *)
Definition hintOperators : list string := ["="; "\lt"; "\gt"; "\leq"; "\geq"].

(** No match of [r] starts inside [pre], whatever follows in [t]: a
    match found in [pre ++ t] starts at [t] or later. *)
Definition starts_no_match (r : regex) (pre t : string) : Prop :=
  forall pre1 pre2, pre = (pre1 ++ pre2)%string -> pre2 <> EmptyString ->
    forall s' caps, ~ matches r (pre2 ++ t) [] s' caps.

(** The text starts with the end of the set form of a hint: [\}], an
    optional [3], and the closing brace. *)
Definition set_closes (s : string) : Prop :=
  exists rest, s = ("\}}" ++ rest)%string \/ s = ("\}3}" ++ rest)%string.

(** The two forms of the subscript of a hint, between [_{] and the
    closing brace, with the payload that the correction keeps; [post] is
    the text after the closing brace.
    - The summation form: [\sum], whitespace, and the text [g] up to the
      first closing brace; the payload is [g] without a final [3].
    - The set form: [\{], the shortest text [g] that is followed by [\}],
      an optional [3] and the closing brace, [\}], and that [3] or
      nothing; the payload is [g]. *)
Inductive hint_subscript (post : string) : string -> string -> Prop :=
| summation_form ws g payload :
    string_forall is_space ws = true ->
    string_forall dot g = true ->
    (forall c, first_char g = Some c -> is_space c = false) ->
    ~ occurs "}" g ->
    g = (payload ++ "3")%string
    \/ (payload = g /\ last_char g <> Some "3"%char) ->
    hint_subscript post ("\sum" ++ ws ++ g) payload
| set_form g opt3 :
    g <> EmptyString ->
    string_forall dot g = true ->
    opt3 = EmptyString \/ opt3 = "3" ->
    (forall g1 g2, g = (g1 ++ g2)%string ->
                   g1 <> EmptyString -> g2 <> EmptyString ->
                   ~ set_closes (g2 ++ "\}" ++ opt3 ++ "}" ++ post)) ->
    hint_subscript post ("\{" ++ g ++ "\}" ++ opt3) g.

(** ** The MathML rewriting helpers

    [modifyMathTag] and [modifyMsubTag] work in place on the object that
    xml2js builds from a [math] element: every child element name is a
    property holding the array of the children of that name, absent when
    there is none. The text children [mo] and [mn] are arrays of strings.
    A function that mutates its argument returns the argument after the
    call together with the completion of the call, so that what a call
    changed before it threw stays visible. *)

(** The first row of a subscript. *)
Record InnerRow := mkInnerRow
  { inner_mo : option (list string);
    inner_mn : option (list string) }.

Record SubTag := mkSubTag { sub_mrow : option (list InnerRow) }.

Record Row := mkRow
  { mo : option (list string);
    mn : option (list string);
    msub : option (list SubTag) }.

Record MathTag := mkMathTag { mrow : option (list Row) }.

(** [a[0] = v]: an empty array gets its first element. *)
Definition set_first (v : string) (a : list string) : list string :=
  match a with
  | [] => [v]
  | _ :: rest => v :: rest
  end.

(** [a[a.length - 1] = v]: on an empty array the key is [-1], which is
    no element of the array. *)
Fixpoint set_last (v : string) (a : list string) : list string :=
  match a with
  | [] => []
  | [_] => [v]
  | x :: rest => x :: set_last v rest
  end.

(** [a[a.length - 1]]. *)
Definition last_element (a : list string) : option string := last a.

(** The two assignments on the first row of a subscript: [mo[0]] first,
    then the last [mn]; either array may be missing. *)
Definition modifyInnerRow (mrowTag : InnerRow) : InnerRow * completion unit :=
  match inner_mo mrowTag with
  | None => (mrowTag, Throw TypeError)
  | Some moTag =>
      let opened := mkInnerRow (Some (set_first "{" moTag)) (inner_mn mrowTag) in
      match inner_mn mrowTag with
      | None => (opened, Throw TypeError)
      | Some mnTag =>
          (mkInnerRow (Some (set_first "{" moTag)) (Some (set_last "}" mnTag)),
           Normal tt)
      end
  end.

(** [findIndex] of the first subscript child that has rows, and the
    rewrite of its first row when there is one. *)
Fixpoint modifyFirstSub (msubTag : list SubTag) : list SubTag * completion unit :=
  match msubTag with
  | [] => ([], Normal tt)
  | subTag :: rest =>
      match sub_mrow subTag with
      | None =>
          let '(rest', c) := modifyFirstSub rest in (subTag :: rest', c)
      | Some [] => (msubTag, Normal tt)
      | Some (mrowTag :: others) =>
          let '(mrowTag', c) := modifyInnerRow mrowTag in
          (mkSubTag (Some (mrowTag' :: others)) :: rest, c)
      end
  end.

Definition modifyMsubTag (mrowTag : Row) : Row * completion unit :=
  match msub mrowTag with
  | None => (mrowTag, Normal tt)
  | Some msubTag =>
      let '(msubTag', c) := modifyFirstSub msubTag in
      (mkRow (mo mrowTag) (mn mrowTag) (Some msubTag'), c)
  end.

(** The test of the loop of [modifyMathTag]: the first operator is [=]
    and the last number is [3]. *)
Definition closesWith3 (mrowTag : Row) : bool :=
  match mo mrowTag, mn mrowTag with
  | Some (op :: _), Some mnTag =>
      (String.eqb op "=" &&
       match last_element mnTag with
       | Some n => String.eqb n "3"
       | None => false
       end)%bool
  | _, _ => false
  end.

(** The body of the loop for a row that passes the test: [mo[0] = "="]
    writes what is there already, the last [mn] becomes the closing brace,
    then the subscript is rewritten. *)
Definition modifyRow (mrowTag : Row) : Row * completion unit :=
  modifyMsubTag
    (mkRow (option_map (set_first "=") (mo mrowTag))
           (option_map (set_last "}") (mn mrowTag))
           (msub mrowTag)).

(** The loop of [modifyMathTag]; a throw leaves the rows after the
    current one as they were. *)
Fixpoint modifyRows (mrowTags : list Row) : list Row * completion unit :=
  match mrowTags with
  | [] => ([], Normal tt)
  | mrowTag :: rest =>
      if closesWith3 mrowTag then
        match modifyRow mrowTag with
        | (mrowTag', Normal _) =>
            let '(rest', c) := modifyRows rest in (mrowTag' :: rest', c)
        | (mrowTag', Throw e) => (mrowTag' :: rest, Throw e)
        end
      else
        let '(rest', c) := modifyRows rest in (mrowTag :: rest', c)
  end.

Definition modifyMathTag (mathTag : MathTag) : MathTag * completion unit :=
  match mrow mathTag with
  | None => (mathTag, Throw TypeError)
  | Some mrowTags =>
      let '(mrowTags', c) := modifyRows mrowTags in
      (mkMathTag (Some mrowTags'), c)
  end.

(** A row whose subscript can be rewritten without a throw: the first
    subscript child that has rows has no first row, or a first row with
    both arrays. *)
Fixpoint subscript_ready (msubTag : list SubTag) : bool :=
  match msubTag with
  | [] => true
  | subTag :: rest =>
      match sub_mrow subTag with
      | None => subscript_ready rest
      | Some [] => true
      | Some (mrowTag :: _) =>
          match inner_mo mrowTag, inner_mn mrowTag with
          | Some _, Some _ => true
          | _, _ => false
          end
      end
  end.

Definition row_ready (mrowTag : Row) : bool :=
  match msub mrowTag with
  | None => true
  | Some msubTag => subscript_ready msubTag
  end.

(** ** Sample data *)

(** Two documents numbered independently, each with two traces and two
    groups. *)
Definition sample_document : InkML string unit string :=
  mkInkML [mkTrace "0" "10 20, 11 21"; mkTrace "1" "30 40, 31 41"]
          [("0", mkTraceGroup ["0"; "1"] tt); ("1", mkTraceGroup ["1"] tt)].

Definition sample_batch : jsobj (InkML string unit string) :=
  [("1", sample_document); ("2", sample_document)].

(** A document whose only group refers to a trace [7] it does not have. *)
Definition dangling_document : InkML string unit string :=
  mkInkML [mkTrace "0" "10 20, 11 21"]
          [("0", mkTraceGroup ["0"; "7"] tt)].


(** Four documents created out of order; two of the keys are file
    names, which enumerate in creation order after the array indices. *)
Definition sample_entries : list (string * InkML string unit string) :=
  [("5", sample_document); ("b.inkml", dangling_document);
   ("2", sample_document); ("a.inkml", dangling_document)].

(** The same documents created in another order that keeps [b.inkml]
    before [a.inkml]. *)
Definition sample_entries' : list (string * InkML string unit string) :=
  [("b.inkml", dangling_document); ("2", sample_document);
   ("a.inkml", dangling_document); ("5", sample_document)].

(** A document with one trace and one group. *)
Definition small_document : InkML string unit string :=
  mkInkML [mkTrace "0" "10 20"] [("0", mkTraceGroup ["0"] tt)].

(** Collaborators for a run of the handler: a recognizer that prints
    [stdout] and nothing on the error channel for every command, an empty
    batch, and a writer that succeeds. *)
Definition quiet_seshat (stdout : string) (command : string) : ExecResult :=
  ExecDone stdout "".

(** A recognizer that also writes a warning on the error channel. *)
Definition noisy_seshat (command : string) : ExecResult :=
  ExecDone "LaTeX: x" "warning".

Definition no_documents (lastWrittenNumbers : list N)
  : completion (jsobj (InkML string unit string)) :=
  Normal [].

Definition write_ok (info : jsobj (InkML string unit (option string)))
  : completion unit :=
  Normal tt.

(** A [math] element with the row [x = 3] whose subscript row is [( i )],
    and a row that the loop skips. *)
Definition sample_math : MathTag :=
  mkMathTag
    (Some [mkRow (Some ["="]) (Some ["x"; "3"])
                 (Some [mkSubTag None;
                        mkSubTag (Some [mkInnerRow (Some ["("]) (Some ["i"; ")"])])]);
           mkRow (Some ["+"]) (Some ["3"]) None]).

(** A [math] element whose first row passes the test of the loop and
    has a subscript whose first row has no [mn]; a second row follows. *)
Definition broken_row : Row :=
  mkRow (Some ["="]) (Some ["x"; "3"])
        (Some [mkSubTag (Some [mkInnerRow (Some ["("]) None])]).

Definition later_row : Row :=
  mkRow (Some ["="]) (Some ["y"; "3"]) None.

(** Two traces that carry the same original identifier, then a third. *)
Definition repeated_traces : list (Trace string) :=
  [mkTrace "0" "10 20"; mkTrace "0" "30 40"; mkTrace "1" "50 60"].

(** A recognizer output with text before the marker and after the line
    of the expression. *)
Definition sample_output : string :=
  "Parsing...
LaTeX:   a + b  
Done".

(** A writer that throws. *)
Definition write_fails (info : jsobj (InkML string unit (option string)))
  : completion unit :=
  Throw (Error "EACCES").

(** * Proofs *)

(** * Decimal identifiers *)

Lemma ToString_parse n :
  NilEmpty.uint_of_string (ToString n) = Some (N.to_uint n).
Proof. apply NilEmpty.usu. Qed.

Lemma ToString_inj n m : ToString n = ToString m -> n = m.
Proof.
  intros H. apply DecimalN.Unsigned.to_uint_inj.
  pose proof (ToString_parse n) as Hn. rewrite H, ToString_parse in Hn.
  congruence.
Qed.

Lemma is_array_index_ToString n :
  n < 4294967295 -> is_array_index (ToString n) = Some n.
Proof.
  intros Hn. unfold is_array_index. rewrite ToString_parse. cbn zeta.
  rewrite DecimalN.Unsigned.of_to, String.eqb_refl.
  apply N.ltb_lt in Hn. by rewrite Hn.
Qed.

Lemma is_array_index_Some k n :
  is_array_index k = Some n -> k = ToString n /\ n < 4294967295.
Proof.
  unfold is_array_index. destruct (NilEmpty.uint_of_string k) as [d|]; [|done].
  cbn zeta. destruct (String.eqb_spec (ToString (N.of_uint d)) k) as [Hk|]; [|done].
  destruct (N.ltb_spec (N.of_uint d) 4294967295); [|done].
  cbn. intros [= <-]. done.
Qed.

(** * Consecutive counter values *)

Lemma Nseq_length c n : List.length (Nseq c n) = n.
Proof. revert c. induction n; intros; cbn; auto. Qed.

Lemma elem_of_Nseq x c n : x ∈ Nseq c n <-> c <= x < c + N.of_nat n.
Proof.
  revert c. induction n as [|n IH]; intros c; cbn [Nseq].
  - rewrite elem_of_nil. lia.
  - rewrite elem_of_cons, IH. lia.
Qed.

Lemma NoDup_Nseq c n : NoDup (Nseq c n).
Proof.
  revert c. induction n as [|n IH]; intros c; cbn [Nseq]; constructor; auto.
  rewrite elem_of_Nseq. lia.
Qed.

Lemma Nseq_app c n m : Nseq c (n + m) = Nseq c n ++ Nseq (c + N.of_nat n) m.
Proof.
  revert c. induction n as [|n IH]; intros c.
  - cbn. by rewrite N.add_0_r.
  - cbn [Nseq Nat.add app]. rewrite IH. do 3 f_equal. lia.
Qed.

Lemma NoDup_ToString_Nseq c n : NoDup (map ToString (Nseq c n)).
Proof.
  apply (NoDup_fmap_2_strong ToString); [|apply NoDup_Nseq].
  intros x y _ _. apply ToString_inj.
Qed.

Lemma elem_of_concat {A} (x : A) (ls : list (list A)) :
  x ∈ concat ls <-> exists l, x ∈ l /\ l ∈ ls.
Proof.
  induction ls as [|l ls IH]; cbn.
  - split; [by intros ?%elem_of_nil|by intros (? & _ & ?%elem_of_nil)].
  - rewrite elem_of_app, IH. split.
    + intros [?|(l' & ? & ?)]; [exists l; split; [done|left]|].
      exists l'. split; [done|by right].
    + intros (l' & Hx & [->|?]%elem_of_cons); [by left|]. right. by exists l'.
Qed.

(** * Objects *)

Section JsObjectFacts.
Context {V : Type}.
Implicit Types (o : jsobj V) (k : string) (v : V).

Lemma hasOwnProperty_true o k : hasOwnProperty o k = true <-> k ∈ own_keys o.
Proof.
  unfold hasOwnProperty. rewrite existsb_exists. split.
  - intros (k' & Hin & Heq). apply String.eqb_eq in Heq. subst.
    by apply list_elem_of_In.
  - intros Hin. exists k. split; [by apply list_elem_of_In|apply String.eqb_refl].
Qed.

Lemma hasOwnProperty_false o k : hasOwnProperty o k = false <-> k ∉ own_keys o.
Proof.
  rewrite <- hasOwnProperty_true. destruct (hasOwnProperty o k); naive_solver.
Qed.

Lemma own_keys_app o1 o2 : own_keys (o1 ++ o2) = own_keys o1 ++ own_keys o2.
Proof. apply map_app. Qed.

Lemma own_keys_update k v o : own_keys (obj_update k v o) = own_keys o.
Proof.
  induction o as [|[k' v'] o IH]; [done|]. cbn.
  destruct (String.eqb k k'); cbn; [done|]. f_equal. apply IH.
Qed.

Lemma obj_update_length k v o : List.length (obj_update k v o) = List.length o.
Proof.
  induction o as [|[k' v'] o IH]; [done|]. cbn.
  destruct (String.eqb k k'); cbn; auto.
Qed.

Lemma obj_insert_perm k v o : obj_insert k v o ≡ₚ (k, v) :: o.
Proof.
  induction o as [|[k' v'] o IH]; [done|]. cbn.
  destruct (key_before k k'); [done|]. rewrite IH. apply Permutation_swap.
Qed.

Lemma obj_set_fresh k v o : k ∉ own_keys o -> obj_set k v o ≡ₚ (k, v) :: o.
Proof.
  intros Hk. unfold obj_set.
  apply hasOwnProperty_false in Hk. rewrite Hk. apply obj_insert_perm.
Qed.

Lemma elem_of_obj_update e k v o :
  e ∈ obj_update k v o -> e ∈ o \/ e.1 = k /\ e.2 = v.
Proof.
  induction o as [|[k' v'] o IH]; cbn; [by left|].
  destruct (String.eqb_spec k k') as [->|Hne]; rewrite !elem_of_cons.
  - intros [->|?]; auto.
  - intros [->|?]; auto. destruct IH as [?|?]; auto.
Qed.

Lemma elem_of_obj_set e k v o :
  e ∈ obj_set k v o -> e ∈ o \/ e = (k, v).
Proof.
  unfold obj_set. destruct (hasOwnProperty o k).
  - intros [?|[? ?]]%elem_of_obj_update; auto. right. destruct e; cbn in *; congruence.
  - rewrite obj_insert_perm, elem_of_cons. intros [?|?]; auto.
Qed.

Lemma obj_get_update k v o k' :
  k ∈ own_keys o ->
  obj_get (obj_update k v o) k' = if String.eqb k' k then Some v else obj_get o k'.
Proof.
  induction o as [|[k1 v1] o IH]; cbn; [by intros ?%elem_of_nil|].
  intros Hin. destruct (String.eqb_spec k k1) as [->|Hne]; cbn.
  - by destruct (String.eqb k' k1).
  - apply elem_of_cons in Hin as [?|Hin]; [done|].
    rewrite IH by done.
    destruct (String.eqb_spec k' k1) as [->|]; [|done].
    destruct (String.eqb_spec k1 k); [by subst|done].
Qed.

Lemma obj_get_insert k v o k' :
  k ∉ own_keys o ->
  obj_get (obj_insert k v o) k' = if String.eqb k' k then Some v else obj_get o k'.
Proof.
  induction o as [|[k1 v1] o IH]; cbn; [done|].
  intros Hin. apply not_elem_of_cons in Hin as [Hne Hin].
  destruct (key_before k k1); cbn; [done|].
  rewrite IH by done.
  destruct (String.eqb_spec k' k1) as [->|]; [|done].
  destruct (String.eqb_spec k1 k); [by subst|done].
Qed.

(** Reading a property back after an assignment. *)
Lemma obj_get_set k v o k' :
  obj_get (obj_set k v o) k' = if String.eqb k' k then Some v else obj_get o k'.
Proof.
  unfold obj_set. destruct (hasOwnProperty o k) eqn:H.
  - apply obj_get_update. by apply hasOwnProperty_true.
  - apply obj_get_insert. by apply hasOwnProperty_false.
Qed.
End JsObjectFacts.

(** * The unifier *)

Section UnifierFacts.
Context {TP GP : Type}.
Abbreviation Trace := (Trace TP).
Abbreviation TraceGroup := (TraceGroup GP).
Abbreviation InkML := (InkML TP GP).
Implicit Types (ts : list Trace) (c : N).

(** ** Trace identifiers *)

Lemma assignUniqueTraceIDs_counter ts c :
  (assignUniqueTraceIDs ts c).2 = c + N.of_nat (List.length ts).
Proof.
  revert c. induction ts as [|t ts IH]; intros c; cbn.
  - lia.
  - specialize (IH (c + 1)). destruct (assignUniqueTraceIDs ts (c + 1)).
    cbn in *. lia.
Qed.

Lemma assignUniqueTraceIDs_ids ts c :
  map id (assignUniqueTraceIDs ts c).1 = map ToString (Nseq c (List.length ts)).
Proof.
  revert c. induction ts as [|t ts IH]; intros c; cbn; [done|].
  specialize (IH (c + 1)). destruct (assignUniqueTraceIDs ts (c + 1)).
  cbn in *. by rewrite IH.
Qed.

Lemma assignUniqueTraceIDs_lookup ts c i t :
  ts !! i = Some t ->
  (assignUniqueTraceIDs ts c).1 !! i
  = Some (mkTrace (ToString (c + N.of_nat i)) (trace_rest t)).
Proof.
  revert c i. induction ts as [|t' ts IH]; intros c i; [done|]. cbn.
  specialize (IH (c + 1)). destruct (assignUniqueTraceIDs ts (c + 1)) as [upd c'].
  destruct i as [|i]; cbn in *.
  - intros [= ->]. by rewrite N.add_0_r.
  - intros H. etrans; [exact (IH _ H)|]. do 3 f_equal. lia.
Qed.

Lemma assignUniqueTraceIDs_length ts c :
  List.length (assignUniqueTraceIDs ts c).1 = List.length ts.
Proof.
  rewrite <- (length_map id), assignUniqueTraceIDs_ids, length_map.
  apply Nseq_length.
Qed.

(** ** The map from old to new identifiers *)

Lemma changes_range (l : list (Trace * Trace)) acc k v :
  obj_get (fold_left recordChange l acc) k = Some v ->
  obj_get acc k = Some v \/ v ∈ map (fun p => id p.2) l.
Proof.
  revert acc. induction l as [|[old new] l IH]; intros acc; cbn; [by left|].
  intros [H|H]%IH.
  - unfold recordChange in H. cbn in H. rewrite obj_get_set in H. destruct (String.eqb k (id old)); [|by left].
    right. injection H as <-. left.
  - right. by right.
Qed.

Lemma changes_defined (l : list (Trace * Trace)) acc k :
  is_Some (obj_get acc k) \/ k ∈ map (fun p => id p.1) l ->
  is_Some (obj_get (fold_left recordChange l acc) k).
Proof.
  revert acc. induction l as [|[old new] l IH]; intros acc; cbn.
  - intros [?|?%elem_of_nil]; done.
  - intros H. apply IH. unfold recordChange. cbn. rewrite obj_get_set.
    destruct (String.eqb_spec k (id old)) as [->|Hne]; [by left; eexists|].
    destruct H as [?|H]; [by left|]. apply elem_of_cons in H as [?|?]; [done|by right].
Qed.

(** A reference to a trace of the document is rewritten to the new
    identifier of a trace of the document. *)
Lemma traceIdChanges_resolves ts c ref :
  ref ∈ map id ts ->
  exists new, obj_get (traceIdChanges ts (assignUniqueTraceIDs ts c).1) ref = Some new
         /\ new ∈ map id (assignUniqueTraceIDs ts c).1.
Proof.
  intros Hin. unfold traceIdChanges.
  set (upd := (assignUniqueTraceIDs ts c).1).
  assert (Hlen : List.length upd = List.length ts)
    by apply assignUniqueTraceIDs_length.
  destruct (changes_defined (zip ts upd) [] ref) as [new Hnew].
  { right. replace (map (fun p => id p.1) (zip ts upd)) with (map id ts); [done|].
    rewrite <- (fst_zip ts upd) at 1 by lia. by rewrite <- list_fmap_compose. }
  exists new. split; [done|].
  apply changes_range in Hnew as [?|Hnew]; [done|].
  replace (map (fun p => id p.2) (zip ts upd)) with (map id upd) in Hnew; [done|].
  rewrite <- (snd_zip ts upd) at 1 by lia. by rewrite <- list_fmap_compose.
Qed.


(** The last assignment to a key of the map of changes is the one that
    stays. *)
Lemma traceIdChanges_middle (ts1 ts2 : list Trace) t c :
  id t ∉ map id ts2 ->
  obj_get (traceIdChanges (ts1 ++ t :: ts2)
             (assignUniqueTraceIDs (ts1 ++ t :: ts2) c).1) (id t)
  = Some (ToString (c + N.of_nat (List.length ts1))).
Proof.
  intros Hlast. unfold traceIdChanges. generalize ([] : jsobj string) as acc.
  revert c. induction ts1 as [|t0 ts1 IH]; intros c acc.
  - cbn [app assignUniqueTraceIDs List.length].
    destruct (assignUniqueTraceIDs ts2 (c + 1)) as [upd c'] eqn:Hupd.
    cbn [fst zip zip_with fold_left]. unfold recordChange at 2. cbn [fst snd id].
    assert (Hrest : forall (l : list (Trace * Trace)) acc',
               id t ∉ map (fun p => id p.1) l ->
               obj_get (fold_left recordChange l acc') (id t) = obj_get acc' (id t)).
    { clear. induction l as [|[old new] l IHl]; intros acc' Hl; [done|].
      cbn in Hl. apply not_elem_of_cons in Hl as [Hne Hl].
      cbn [fold_left]. rewrite IHl by done. unfold recordChange. cbn [fst snd].
      rewrite obj_get_set. by destruct (String.eqb_spec (id t) (id old)). }
    rewrite Hrest.
    + rewrite obj_get_set, String.eqb_refl. f_equal. f_equal. lia.
    + intros (p & Hp & Hin)%list_elem_of_fmap. apply Hlast.
      destruct p as [old new]. apply elem_of_zip_l in Hin.
      apply list_elem_of_fmap. by exists old.
  - cbn [app assignUniqueTraceIDs List.length].
    specialize (IH (c + 1)).
    destruct (assignUniqueTraceIDs (ts1 ++ t :: ts2) (c + 1)) as [upd c'].
    cbn [fst zip zip_with fold_left]. cbn [fst] in IH. rewrite IH.
    f_equal. f_equal. lia.
Qed.


(** ** Rewriting the references of the groups *)

Lemma rewrite_fold_elem changes (tg : jsobj (TraceGroup string)) acc e :
  e ∈ fold_left (rewriteGroup changes) tg acc ->
  e ∈ acc \/ exists data, (e.1, data) ∈ tg /\ e.2 = rewriteRefs changes data.
Proof.
  revert acc. induction tg as [|[g d] tg IH]; intros acc; cbn; [by left|].
  intros [H|(data & ? & ?)]%IH.
  - unfold rewriteGroup in H. cbn in H. apply elem_of_obj_set in H as [?|Heq]; [by left|]. subst e.
    right. exists d. split; [left|done].
  - right. exists data. split; [by right|done].
Qed.

Lemma rewrite_fold_perm changes (tg : jsobj (TraceGroup string)) acc :
  NoDup (own_keys acc ++ own_keys tg) ->
  fold_left (rewriteGroup changes) tg acc
  ≡ₚ acc ++ map (fun e => (e.1, rewriteRefs changes e.2)) tg.
Proof.
  revert acc. induction tg as [|[g d] tg IH]; intros acc Hnd; cbn.
  - by rewrite app_nil_r.
  - cbn in Hnd. apply NoDup_app in Hnd as (Hacc & Hdisj & Htg).
    apply NoDup_cons in Htg as [Hg Htg].
    assert (Hfresh : g ∉ own_keys acc).
    { intros Hin. apply (Hdisj _ Hin). left. }
    pose proof (obj_set_fresh g (rewriteRefs changes d) acc Hfresh) as Hset.
    unfold rewriteGroup at 2. cbn [fst snd]. rewrite IH.
    + rewrite Hset. cbn. by rewrite Permutation_middle.
    + unfold own_keys in *. rewrite Hset. cbn. apply NoDup_cons. split.
      * rewrite elem_of_app. intros [?|?]; done.
      * apply NoDup_app. split_and!; [done| |done].
        intros k Hk Hk'. apply (Hdisj _ Hk). by right.
Qed.

Lemma updateTraceDataRefs_length (tg : jsobj (TraceGroup string)) changes :
  NoDup (own_keys tg) ->
  List.length (updateTraceDataRefs tg changes) = List.length tg.
Proof.
  intros Hnd. unfold updateTraceDataRefs. rewrite rewrite_fold_perm by done.
  cbn. by rewrite length_map.
Qed.

(** ** Group identifiers *)

Lemma number_fold_counter {R} (tg : jsobj (TraceGroup R)) acc c :
  (fold_left numberGroup tg (acc, c)).2 = c + N.of_nat (List.length tg).
Proof.
  revert acc c. induction tg as [|[g d] tg IH]; intros acc c; cbn.
  - lia.
  - unfold numberGroup at 2. cbn [fst snd]. rewrite IH. lia.
Qed.

Lemma number_fold_perm {R} (tg : jsobj (TraceGroup R)) acc c :
  (forall k, k ∈ own_keys acc -> forall n, c <= n -> k <> ToString n) ->
  (fold_left numberGroup tg (acc, c)).1
  ≡ₚ acc ++ zip (map ToString (Nseq c (List.length tg))) (map snd tg).
Proof.
  revert acc c. induction tg as [|[g d] tg IH]; intros acc c Hfresh; cbn.
  - by rewrite app_nil_r.
  - assert (Hc : ToString c ∉ own_keys acc).
    { intros Hin. by apply (Hfresh _ Hin c). }
    pose proof (obj_set_fresh (ToString c) d acc Hc) as Hset.
    unfold numberGroup at 2. cbn [fst snd]. rewrite IH.
    + rewrite Hset. cbn. by rewrite Permutation_middle.
    + intros k Hk n Hn. unfold own_keys in Hk. rewrite Hset in Hk. cbn in Hk.
      apply elem_of_cons in Hk as [->|Hk].
      * intros ?%ToString_inj. lia.
      * apply (Hfresh _ Hk). lia.
Qed.

Lemma assignUniqueTraceGroupIDs_counter {R} (tg : jsobj (TraceGroup R)) c :
  (assignUniqueTraceGroupIDs tg c).2 = c + N.of_nat (List.length tg).
Proof. apply number_fold_counter. Qed.

Lemma assignUniqueTraceGroupIDs_perm {R} (tg : jsobj (TraceGroup R)) c :
  (assignUniqueTraceGroupIDs tg c).1
  ≡ₚ zip (map ToString (Nseq c (List.length tg))) (map snd tg).
Proof.
  unfold assignUniqueTraceGroupIDs. rewrite number_fold_perm; [done|].
  by intros k ?%elem_of_nil.
Qed.

Lemma assignUniqueTraceGroupIDs_keys {R} (tg : jsobj (TraceGroup R)) c :
  own_keys (assignUniqueTraceGroupIDs tg c).1
  ≡ₚ map ToString (Nseq c (List.length tg)).
Proof.
  unfold own_keys. rewrite assignUniqueTraceGroupIDs_perm.
  change (map fst ?l) with (l.*1).
  rewrite fst_zip; [done|]. by rewrite !length_map, Nseq_length.
Qed.

Lemma assignUniqueTraceGroupIDs_values {R} (tg : jsobj (TraceGroup R)) c :
  map snd (assignUniqueTraceGroupIDs tg c).1 ≡ₚ map snd tg.
Proof.
  rewrite assignUniqueTraceGroupIDs_perm.
  change (map snd (zip ?l ?k)) with ((zip l k).*2).
  rewrite snd_zip; [done|]. by rewrite !length_map, Nseq_length.
Qed.
End UnifierFacts.

Section BatchFacts.
Context {TP GP : Type}.
Abbreviation Doc := (InkML TP GP).
Implicit Types (b : jsobj (Doc string)) (doc : Doc string) (tc gc : N).

Lemma unifyDocument_eq doc tc gc :
  let upd := (assignUniqueTraceIDs (traces doc) tc).1 in
  let groups := updateTraceDataRefs (traceGroups doc)
                  (traceIdChanges (traces doc) upd) in
  unifyDocument doc tc gc
  = (mkInkML upd (assignUniqueTraceGroupIDs groups gc).1,
     tc + N.of_nat (List.length (traces doc)),
     gc + N.of_nat (List.length groups)).
Proof.
  cbn zeta. unfold unifyDocument.
  rewrite <- assignUniqueTraceIDs_counter.
  destruct (assignUniqueTraceIDs (traces doc) tc) as [upd c']. cbn [fst snd].
  rewrite <- assignUniqueTraceGroupIDs_counter.
  by destruct (assignUniqueTraceGroupIDs _ gc).
Qed.

Lemma unifyFrom_cons outFile doc b tc gc :
  unifyFrom ((outFile, doc) :: b) tc gc
  = (outFile, (unifyDocument doc tc gc).1.1)
    :: unifyFrom b (unifyDocument doc tc gc).1.2 (unifyDocument doc tc gc).2.
Proof. cbn. by destruct (unifyDocument doc tc gc) as [[? ?] ?]. Qed.

Lemma unifyFrom_keys b tc gc : own_keys (unifyFrom b tc gc) = own_keys b.
Proof.
  revert tc gc. induction b as [|[outFile doc] b IH]; intros tc gc; [done|].
  rewrite unifyFrom_cons. cbn. f_equal. apply IH.
Qed.

Lemma unifyFrom_trace_ids b tc gc :
  map id (all_traces (unifyFrom b tc gc))
  = map ToString (Nseq tc (trace_count b)).
Proof.
  revert tc gc. induction b as [|[outFile doc] b IH]; intros tc gc; [done|].
  rewrite unifyFrom_cons, unifyDocument_eq. cbn [fst snd].
  unfold all_traces, trace_count in *. cbn [map concat sum_list_with sum_list traces snd].
  rewrite map_app, IH, assignUniqueTraceIDs_ids, Nseq_app, map_app. done.
Qed.

Lemma unifyFrom_group_keys b tc gc :
  Forall (fun e => NoDup (own_keys (traceGroups e.2))) b ->
  own_keys (all_groups (unifyFrom b tc gc))
  ≡ₚ map ToString (Nseq gc (group_count b)).
Proof.
  revert tc gc. induction b as [|[outFile doc] b IH]; intros tc gc Hwf; [done|].
  apply Forall_cons in Hwf as [Hdoc Hwf]. cbn in Hdoc.
  rewrite unifyFrom_cons, unifyDocument_eq. cbn [fst snd].
  unfold all_groups, group_count in *.
  cbn [map concat sum_list_with sum_list traceGroups snd].
  rewrite own_keys_app, IH, assignUniqueTraceGroupIDs_keys by done.
  rewrite updateTraceDataRefs_length by done.
  by rewrite Nseq_app, map_app.
Qed.

(** The document at position [j] is unified with the trace counter
    advanced by the traces of the documents before it. *)
Lemma unifyFrom_lookup b tc gc j outFile doc :
  b !! j = Some (outFile, doc) ->
  exists gc',
    unifyFrom b tc gc !! j
    = Some (outFile,
            (unifyDocument doc (tc + N.of_nat (trace_count (take j b))) gc').1.1).
Proof.
  revert tc gc j. induction b as [|[outFile' doc'] b IH]; intros tc gc j; [done|].
  rewrite unifyFrom_cons. destruct j as [|j]; cbn [lookup list_lookup take].
  - intros [= -> ->]. exists gc. unfold trace_count. cbn. by rewrite N.add_0_r.
  - intros H. destruct (IH (unifyDocument doc' tc gc).1.2
                            (unifyDocument doc' tc gc).2 j H) as [gc' Hj].
    exists gc'. etrans; [exact Hj|].
    replace ((unifyDocument doc' tc gc).1.2 + N.of_nat (trace_count (take j b)))
      with (tc + N.of_nat (trace_count ((outFile', doc') :: take j b))); [done|].
    rewrite unifyDocument_eq. unfold trace_count. cbn. lia.
Qed.

(** Every group of a unified document is a group of the document with
    its references looked up in the document's map of changes. *)
Lemma unifyDocument_groups doc tc gc key g' :
  (key, g') ∈ traceGroups (unifyDocument doc tc gc).1.1 ->
  exists old g,
    (old, g) ∈ traceGroups doc /\
    g' = rewriteRefs
           (traceIdChanges (traces doc) (traces (unifyDocument doc tc gc).1.1)) g.
Proof.
  rewrite unifyDocument_eq. cbn [fst snd traceGroups traces]. intros Hin.
  assert (Hg : g' ∈ map snd (assignUniqueTraceGroupIDs
      (updateTraceDataRefs (traceGroups doc)
         (traceIdChanges (traces doc) (assignUniqueTraceIDs (traces doc) tc).1))
      gc).1).
  { apply list_elem_of_fmap. by exists (key, g'). }
  rewrite assignUniqueTraceGroupIDs_values in Hg.
  apply list_elem_of_fmap in Hg as ([old g1] & -> & Hg).
  apply rewrite_fold_elem in Hg as [?%elem_of_nil|(g & Hg & ->)]; [done|].
  by exists old, g.
Qed.
End BatchFacts.

Section UnifierClaims.
Context {TP GP : Type}.
Implicit Types (b : jsobj (InkML TP GP string)).

(** C1. Uniqueness: for a batch whose documents have [t1..tn] traces and
    [g1..gn] groups, the merged structure holds exactly the sum of the
    [ti] traces, with pairwise distinct identifiers, and exactly the sum of
    the [gi] groups, with pairwise distinct identifiers; in particular no
    two documents' traces collide. The batch is a batch of objects: the
    group keys of a document are distinct. *)
Theorem unifier_uniqueness b :
  object_groups b ->
  List.length (all_traces (modifyIDsToUnique b)) = trace_count b
  /\ NoDup (map id (all_traces (modifyIDsToUnique b)))
  /\ List.length (all_groups (modifyIDsToUnique b)) = group_count b
  /\ NoDup (own_keys (all_groups (modifyIDsToUnique b))).
Proof.
  intros Hwf. unfold modifyIDsToUnique.
  pose proof (unifyFrom_trace_ids b 1 1) as Ht.
  pose proof (unifyFrom_group_keys b 1 1 Hwf) as Hg.
  split_and!.
  - rewrite <- (length_map id), Ht, length_map. apply Nseq_length.
  - rewrite Ht. apply NoDup_ToString_Nseq.
  - unfold own_keys in Hg. rewrite <- (length_map fst), Hg, length_map.
    apply Nseq_length.
  - rewrite Hg. apply NoDup_ToString_Nseq.
Qed.

(** C2. Referential integrity: when every reference of every group names
    a trace of its own document, every [traceDataRefs] entry of the merged
    output is the identifier of a trace of the merged output. *)
Theorem unifier_referential_integrity b :
  references_local b ->
  forall key g r,
    (key, g) ∈ all_groups (modifyIDsToUnique b) ->
    r ∈ traceDataRefs g ->
    exists t, t ∈ all_traces (modifyIDsToUnique b) /\ r = Some (id t).
Proof.
  intros Hloc key g r Hg Hr. unfold modifyIDsToUnique in *.
  unfold all_groups in Hg.
  apply elem_of_concat in Hg as (groups & Hg & Hgroups).
  apply list_elem_of_fmap in Hgroups as ([outFile doc'] & -> & Hdoc').
  apply list_elem_of_lookup in Hdoc' as [j Hj].
  assert (Hkey : own_keys (unifyFrom b 1 1) !! j = Some outFile).
  { unfold own_keys. by rewrite list_lookup_fmap, Hj. }
  rewrite unifyFrom_keys in Hkey. unfold own_keys in Hkey.
  rewrite list_lookup_fmap in Hkey.
  apply fmap_Some in Hkey as ([outFile' doc] & Hb & Heq).
  cbn in Heq. subst outFile'.
  destruct (unifyFrom_lookup b 1 1 j outFile doc Hb) as [gc' Hj'].
  rewrite Hj in Hj'. injection Hj' as ->.
  cbn [snd] in Hg.
  apply unifyDocument_groups in Hg as (old & g0 & Hg0 & ->).
  cbn in Hr. apply list_elem_of_fmap in Hr as (ref & -> & Href).
  assert (Hlocal : ref ∈ map id (traces doc)).
  { eapply Forall_forall in Hloc; [|apply list_elem_of_lookup; exists j; exact Hb].
    eapply Forall_forall in Hloc; [|exact Hg0].
    eapply Forall_forall in Hloc; [|exact Href]. exact Hloc. }
  rewrite unifyDocument_eq. cbn [fst snd traces].
  destruct (traceIdChanges_resolves (traces doc)
              (1 + N.of_nat (trace_count (take j b))) ref Hlocal)
    as (new & Hnew & Hin).
  apply list_elem_of_fmap in Hin as (t & -> & Ht).
  exists t. split; [|done].
  unfold all_traces. apply elem_of_concat.
  eexists. split; [exact Ht|].
  apply list_elem_of_fmap.
  eexists (outFile, _). split; [|apply list_elem_of_lookup; exists j; exact Hj].
  cbn [snd]. by rewrite unifyDocument_eq.
Qed.

(** C5. Order preservation: for the document at position [j] of the
    batch, [assignUniqueTraceIDs] gives its traces, in their original
    order, the consecutive counter values that follow the traces of the
    documents before it: the trace at index [i] keeps its payload and gets
    the identifier [String(start + i)], so the first trace has the smallest
    new identifier of the document and each next trace the next value. *)
Theorem unifier_order_preservation b j outFile doc :
  b !! j = Some (outFile, doc) ->
  exists doc',
    modifyIDsToUnique b !! j = Some (outFile, doc')
    /\ traces doc'
       = (assignUniqueTraceIDs (traces doc)
            (1 + N.of_nat (trace_count (take j b)))).1
    /\ List.length (traces doc') = List.length (traces doc)
    /\ forall i t,
         traces doc !! i = Some t ->
         traces doc' !! i
         = Some (mkTrace
                   (ToString (1 + N.of_nat (trace_count (take j b)) + N.of_nat i))
                   (trace_rest t)).
Proof.
  intros Hb. destruct (unifyFrom_lookup b 1 1 j outFile doc Hb) as [gc' Hj].
  eexists. split; [exact Hj|]. rewrite unifyDocument_eq. cbn [fst snd traces].
  split_and!; [done|apply assignUniqueTraceIDs_length|].
  intros i t. apply assignUniqueTraceIDs_lookup.
Qed.

End UnifierClaims.

(** * Enumeration order *)

Lemma key_before_index k k' :
  key_before k k' = true ->
  exists n, is_array_index k = Some n
       /\ forall n', is_array_index k' = Some n' -> n < n'.
Proof.
  unfold key_before. destruct (is_array_index k) as [n|]; [|done].
  intros H. exists n. split; [done|].
  destruct (is_array_index k') as [n'|]; [|done].
  intros ? [= <-]. by apply N.ltb_lt.
Qed.

Lemma key_before_ToString n n' :
  n < 4294967295 -> n' < 4294967295 ->
  key_before (ToString n) (ToString n') = true <-> n < n'.
Proof.
  intros Hn Hn'. unfold key_before.
  rewrite !is_array_index_ToString by done. apply N.ltb_lt.
Qed.

Lemma enumerates_before_trans k k' k'' :
  key_before k k' = true -> enumerates_before k' k'' -> enumerates_before k k''.
Proof.
  intros (n & Hn & Hlt)%key_before_index [H|H]; [|by right].
  apply key_before_index in H as (n' & Hn' & Hlt'). left.
  unfold key_before. rewrite Hn.
  destruct (is_array_index k'') as [n''|] eqn:Hn''; [|done].
  apply N.ltb_lt. specialize (Hlt _ Hn'). specialize (Hlt' _ eq_refl). lia.
Qed.

Lemma enumerates_before_flip k k' :
  key_before k k' = false -> k <> k' -> enumerates_before k' k.
Proof.
  unfold enumerates_before, key_before. intros H Hne.
  destruct (is_array_index k) as [n|] eqn:Hn; [|by right].
  destruct (is_array_index k') as [n'|] eqn:Hn'; [|done].
  left. apply N.ltb_lt. apply N.ltb_ge in H.
  apply is_array_index_Some in Hn as [-> _].
  apply is_array_index_Some in Hn' as [-> _].
  assert (n <> n') by congruence. lia.
Qed.

Section EnumerationOrder.
Context {V : Type}.
Implicit Types (o : jsobj V) (k : string) (v : V).

Lemma own_keys_insert_perm k v o : own_keys (obj_insert k v o) ≡ₚ k :: own_keys o.
Proof. unfold own_keys. by rewrite obj_insert_perm. Qed.

Lemma obj_insert_order k v o :
  k ∉ own_keys o -> enumeration_order o -> enumeration_order (obj_insert k v o).
Proof.
  unfold enumeration_order.
  induction o as [|[k' v'] o IH]; cbn; intros Hk Ho.
  - repeat constructor.
  - apply not_elem_of_cons in Hk as [Hne Hk].
    apply StronglySorted_inv in Ho as [Ho Hk'].
    destruct (key_before k k') eqn:Hb; cbn.
    + constructor; [by constructor|]. constructor; [by left|].
      eapply Forall_impl; [exact Hk'|]. intros k''. by apply enumerates_before_trans.
    + constructor; [by apply IH|].
      fold (own_keys (obj_insert k v o)). rewrite own_keys_insert_perm.
      constructor; [|done]. by apply enumerates_before_flip.
Qed.

(** Assigning a property keeps the properties in enumeration order. *)
Lemma obj_set_order k v o :
  enumeration_order o -> enumeration_order (obj_set k v o).
Proof.
  unfold obj_set. destruct (hasOwnProperty o k) eqn:Hk.
  - unfold enumeration_order. by rewrite own_keys_update.
  - apply obj_insert_order. by apply hasOwnProperty_false.
Qed.
End EnumerationOrder.

Lemma StronglySorted_fmap_inv {A B} (f : A -> B) (R : relation B) (l : list A) :
  StronglySorted R (map f l) -> StronglySorted (fun a a' => R (f a) (f a')) l.
Proof.
  induction l as [|a l IH]; cbn; intros H; [constructor|].
  apply StronglySorted_inv in H as [H Ha]. constructor; [by apply IH|].
  apply Forall_forall. intros a' Hin.
  eapply Forall_forall in Ha; [exact Ha|].
  apply list_elem_of_fmap. by exists a'.
Qed.

Section ObjectOf.
Context {V : Type}.
Implicit Types (o : jsobj V) (k : string) (v : V) (entries : list (string * V)).

Lemma obj_insert_created k v o :
  is_array_index k = None -> obj_insert k v o = o ++ [(k, v)].
Proof.
  intros Hk. induction o as [|[k' v'] o IH]; cbn; [done|].
  unfold key_before. rewrite Hk. by rewrite IH.
Qed.

Lemma filter_obj_insert_index k v o :
  ~ created_order (k, v) ->
  filter created_order (obj_insert k v o) = filter created_order o.
Proof.
  intros Hk. induction o as [|[k' v'] o IH]; cbn [obj_insert].
  - by rewrite filter_cons_False.
  - destruct (key_before k k').
    + by rewrite (filter_cons_False _ (k, v)).
    + rewrite !(filter_cons _ (k', v')). by rewrite IH.
Qed.

Lemma filter_obj_insert k v o :
  filter created_order (obj_insert k v o)
  = filter created_order o ++ filter created_order [(k, v)].
Proof.
  destruct (decide (created_order (k, v))) as [Hk|Hk].
  - rewrite obj_insert_created by done. by rewrite filter_app.
  - rewrite filter_obj_insert_index by done.
    rewrite (filter_cons_False _ (k, v)) by done. by rewrite app_nil_r.
Qed.

Lemma object_fold_order entries o :
  enumeration_order o ->
  enumeration_order (fold_left (fun o e => obj_set e.1 e.2 o) entries o).
Proof.
  revert o. induction entries as [|e entries IH]; intros o Ho; cbn; [done|].
  apply IH. by apply obj_set_order.
Qed.

Lemma object_fold_created entries o :
  NoDup (own_keys o ++ entries.*1) ->
  fold_left (fun o e => obj_set e.1 e.2 o) entries o ≡ₚ o ++ entries
  /\ filter created_order (fold_left (fun o e => obj_set e.1 e.2 o) entries o)
     = filter created_order o ++ filter created_order entries.
Proof.
  revert o. induction entries as [|[k v] entries IH]; intros o Hnd; cbn [fold_left].
  - by rewrite !app_nil_r.
  - cbn in Hnd. apply NoDup_app in Hnd as (Ho & Hdisj & Hd).
    apply NoDup_cons in Hd as [Hk Hd].
    assert (Hfresh : k ∉ own_keys o).
    { intros Hin. apply (Hdisj _ Hin). left. }
    pose proof (obj_set_fresh k v o Hfresh) as Hset. cbn [fst snd].
    destruct (IH (obj_set k v o)) as [IHp IHf].
    { unfold own_keys in *. rewrite Hset. cbn. apply NoDup_cons. split.
      - rewrite elem_of_app. intros [?|?]; done.
      - apply NoDup_app. split_and!; [done| |done].
        intros k' Hk' Hk''. apply (Hdisj _ Hk'). by right. }
    split.
    + rewrite IHp, Hset. cbn. by rewrite Permutation_middle.
    + rewrite IHf. unfold obj_set. apply hasOwnProperty_false in Hfresh.
      rewrite Hfresh, filter_obj_insert, <- app_assoc. f_equal.
      by rewrite <- filter_app.
Qed.

(** Creation puts the properties in enumeration order, and keeps the
    order in which the keys that are no array index were created. *)
Lemma object_of_spec entries :
  NoDup (entries.*1) ->
  object_of entries ≡ₚ entries
  /\ enumeration_order (object_of entries)
  /\ filter created_order (object_of entries) = filter created_order entries.
Proof.
  intros Hnd. destruct (object_fold_created entries []) as [Hp Hf]; [done|].
  split; [done|]. split; [|done]. apply object_fold_order. constructor.
Qed.

Lemma enumeration_split o :
  enumeration_order o ->
  o = filter (fun e => ~ created_order e) o ++ filter created_order o.
Proof.
  unfold enumeration_order. induction o as [|[k v] o IH]; [done|].
  cbn [own_keys map fst]. intros [Ho Hk]%StronglySorted_inv.
  rewrite !filter_cons.
  destruct (decide (created_order (k, v))) as [Hc|Hc].
  - rewrite decide_False by (by intros H; apply H).
    assert (Hall : Forall created_order o).
    { apply Forall_forall. intros [k' v'] Hin.
      eapply Forall_forall in Hk; [|apply list_elem_of_fmap; by exists (k', v')].
      destruct Hk as [Hk|Hk]; [|done]. cbn in Hk.
      unfold key_before, created_order in *. cbn in Hc. by rewrite Hc in Hk. }
    assert (Hnone : filter (fun e => ~ created_order e) o = []).
    { clear -Hall. induction Hall as [|e o He _ IHo]; [done|].
      rewrite filter_cons_False; [done|]. by intros H; apply H. }
    assert (Hsame : filter created_order o = o).
    { clear -Hall. induction Hall as [|e o He _ IHo]; [done|].
      by rewrite filter_cons_True, IHo. }
    by rewrite Hnone, Hsame.
  - rewrite decide_True by done. cbn. f_equal. by apply IH.
Qed.

Lemma StronglySorted_filter {A} (R : relation A) (P : A -> Prop)
    `{!forall x, Decision (P x)} (l : list A) :
  StronglySorted R l -> StronglySorted R (filter P l).
Proof.
  induction 1 as [|x l Hl IH Hx]; [constructor|].
  rewrite filter_cons. destruct (decide (P x)); [|done].
  constructor; [done|]. apply Forall_forall. intros y [_ Hy]%list_elem_of_filter.
  eapply Forall_forall in Hx; [exact Hx|done].
Qed.

(** An object is determined by its properties and by the order in which
    the keys that are no array index were created. *)
Lemma enumeration_unique o o' :
  o ≡ₚ o' -> enumeration_order o -> enumeration_order o' ->
  filter created_order o = filter created_order o' -> o = o'.
Proof.
  intros Hp Ho Ho' Hc.
  rewrite (enumeration_split o Ho), (enumeration_split o' Ho'), Hc. f_equal.
  apply (StronglySorted_unique_strong (fun a a' => enumerates_before a.1 a'.1)).
  - intros [k v] [k' v'] [Hk _]%list_elem_of_filter [Hk' _]%list_elem_of_filter.
    cbn. unfold created_order in Hk, Hk'. cbn in Hk, Hk'.
    intros [H1|H1] [H2|H2]; try done.
    apply key_before_index in H1 as (n & Hn & Hlt).
    apply key_before_index in H2 as (n' & Hn' & Hlt').
    specialize (Hlt _ Hn'). specialize (Hlt' _ Hn). lia.
  - apply StronglySorted_filter. by apply StronglySorted_fmap_inv.
  - apply StronglySorted_filter. by apply StronglySorted_fmap_inv.
  - by rewrite Hp.
Qed.
End ObjectOf.

Lemma StronglySorted_lookup_lt {A} (R : relation A) (l : list A) i j x y :
  StronglySorted R l -> l !! i = Some x -> l !! j = Some y ->
  (i < j)%nat -> R x y.
Proof.
  intros Hl. revert i j. induction Hl as [|a l Hl IH Ha]; intros i j; [done|].
  destruct i as [|i], j as [|j]; cbn; try lia.
  - intros [= <-] Hy _. eapply Forall_forall in Ha; [exact Ha|].
    by eapply list_elem_of_lookup_2.
  - intros Hx Hy Hlt. apply (IH i j Hx Hy). lia.
Qed.

(** Among the keys that are decimal numbers below 2^32 - 1, the
    properties of an object enumerate by ascending number. *)
Lemma enumeration_ascending {V} (o : jsobj V) j j' n n' v v' :
  enumeration_order o ->
  o !! j = Some (ToString n, v) -> o !! j' = Some (ToString n', v') ->
  n < 4294967295 -> n' < 4294967295 ->
  n < n' <-> (j < j')%nat.
Proof.
  intros Ho Hj Hj' Hn Hn'.
  apply StronglySorted_fmap_inv in Ho.
  assert (Hlt : forall i i' m m' w w',
             o !! i = Some (ToString m, w) -> o !! i' = Some (ToString m', w') ->
             m < 4294967295 -> m' < 4294967295 -> (i < i')%nat -> m < m').
  { intros i i' m m' w w' Hi Hi' Hm Hm' Hii.
    pose proof (StronglySorted_lookup_lt _ _ _ _ _ _ Ho Hi Hi' Hii) as [H|H];
      cbn in H.
    - by apply key_before_ToString in H.
    - by rewrite is_array_index_ToString in H. }
  split; [|by eapply Hlt].
  intros Hnn. destruct (Nat.lt_trichotomy j j') as [?|[->|Hgt]]; [done| |].
  - rewrite Hj in Hj'. injection Hj' as ?%ToString_inj _. lia.
  - pose proof (Hlt _ _ _ _ _ _ Hj' Hj Hn' Hn Hgt). lia.
Qed.

Section DeterministicOrder.
Context {TP GP : Type}.
Implicit Types (entries : list (string * InkML TP GP string)).

(** C4 (amended). Determinism: the unifier processes the documents in
    the order in which the keys of the batch object enumerate, that is the
    keys that are array indices (decimal integers below 2^32 - 1) first,
    in ascending numeric order, then the other keys in the order they were
    created. Two batch objects with the same properties (distinct keys),
    created in whatever order that agrees on the keys that are no array
    index, give the same merged structure; the output has the keys in
    that order, which among the keys that are decimal sequence numbers
    below 2^32 - 1 is the ascending order of the numbers, and the
    document at position [j] of it gets for its traces the consecutive
    identifiers that follow the traces of the documents before it,
    counted from 1. *)
Theorem unifier_deterministic_order entries entries' :
  NoDup (entries.*1) ->
  entries' ≡ₚ entries ->
  filter created_order entries' = filter created_order entries ->
  modifyIDsToUnique (object_of entries') = modifyIDsToUnique (object_of entries)
  /\ exists order,
       order ≡ₚ entries
       /\ enumeration_order order
       /\ filter created_order order = filter created_order entries
       /\ own_keys (modifyIDsToUnique (object_of entries)) = own_keys order
       /\ (forall j j' n n' doc doc',
             order !! j = Some (ToString n, doc) ->
             order !! j' = Some (ToString n', doc') ->
             n < 4294967295 -> n' < 4294967295 ->
             n < n' <-> (j < j')%nat)
       /\ forall j outFile doc,
            order !! j = Some (outFile, doc) ->
            exists doc',
              modifyIDsToUnique (object_of entries) !! j = Some (outFile, doc')
              /\ map id (traces doc')
                 = map ToString
                     (Nseq (1 + N.of_nat (trace_count (take j order)))
                           (List.length (traces doc))).
Proof.
  intros Hnd Hperm Hcreated.
  destruct (object_of_spec entries Hnd) as (Hp & Ho & Hc).
  assert (Hnd' : NoDup (entries'.*1)) by (by rewrite Hperm).
  destruct (object_of_spec entries' Hnd') as (Hp' & Ho' & Hc').
  split.
  - f_equal. apply enumeration_unique; [|done..|].
    + by rewrite Hp, Hp'.
    + by rewrite Hc, Hc'.
  - exists (object_of entries). split_and!; [done..| | |].
    + apply unifyFrom_keys.
    + intros j j' n n' doc doc' Hj Hj' Hn Hn'.
      exact (enumeration_ascending _ j j' n n' doc doc' Ho Hj Hj' Hn Hn').
    + intros j outFile doc Hj.
      destruct (unifyFrom_lookup _ 1 1 j outFile doc Hj) as [gc' Hout].
      eexists. split; [exact Hout|].
      rewrite unifyDocument_eq. cbn [fst snd traces].
      apply assignUniqueTraceIDs_ids.
Qed.
End DeterministicOrder.

(** * Strings *)

Lemma string_app_assoc (a b c : string) : ((a ++ b) ++ c = a ++ (b ++ c))%string.
Proof. induction a; cbn; congruence. Qed.

Lemma string_length_app (a b : string) :
  String.length (a ++ b) = (String.length a + String.length b)%nat.
Proof. induction a; cbn; auto. Qed.

Lemma substring_prefix (m s : string) : substring 0 (String.length m) (m ++ s) = m.
Proof. induction m; cbn; [by destruct s|congruence]. Qed.

Lemma consumed_app (m s : string) : consumed (m ++ s) s = m.
Proof.
  unfold consumed. rewrite string_length_app.
  replace (String.length m + String.length s - String.length s)%nat
    with (String.length m) by lia.
  apply substring_prefix.
Qed.

Lemma strip_literal_Some l s s' :
  strip_literal l s = Some s' <-> s = (l ++ s')%string.
Proof.
  revert s. induction l as [|a l IH]; intros s; cbn.
  - split; congruence.
  - destruct s as [|c s]; [done|].
    destruct (Ascii.eqb_spec a c) as [->|Hne].
    + rewrite IH. split; congruence.
    + split; [done|congruence].
Qed.

Lemma strip_literal_app l s : strip_literal l (l ++ s) = Some s.
Proof. by apply strip_literal_Some. Qed.

Lemma strip_literal_None l s :
  strip_literal l s = None <-> forall s', s <> (l ++ s')%string.
Proof.
  split.
  - intros H s' Hs. apply strip_literal_Some in Hs. congruence.
  - intros H. destruct (strip_literal l s) as [s'|] eqn:Hs; [|done].
    apply strip_literal_Some in Hs. by destruct (H s').
Qed.

(** * The matcher against the declarative reading *)

Section MatcherFacts.
Context {A : Type}.
Implicit Types (k : string -> option A) (p : ascii -> bool).

Lemma star_greedy_sound p k s z :
  star_greedy p k s = Some z ->
  exists m s', s = (m ++ s')%string /\ string_forall p m = true /\ k s' = Some z.
Proof.
  induction s as [|c s IH]; cbn.
  - intros H. by exists EmptyString, EmptyString.
  - destruct (p c) eqn:Hc; [|intros H; by exists EmptyString, (String c s)].
    destruct (star_greedy p k s) as [z'|] eqn:Hs.
    + intros [= <-]. destruct (IH eq_refl) as (m & s' & -> & Hm & Hk).
      exists (String c m), s'. cbn. by rewrite Hc, Hm.
    + intros H. by exists EmptyString, (String c s).
Qed.

Lemma star_lazy_sound p k s z :
  star_lazy p k s = Some z ->
  exists m s', s = (m ++ s')%string /\ string_forall p m = true /\ k s' = Some z.
Proof.
  induction s as [|c s IH]; cbn.
  - destruct (k EmptyString) eqn:Hk; [|done].
    intros [= <-]. by exists EmptyString, EmptyString.
  - destruct (k (String c s)) eqn:Hk.
    + intros [= <-]. by exists EmptyString, (String c s).
    + destruct (p c) eqn:Hc; [|done]. intros H.
      destruct (IH H) as (m & s' & -> & Hm & Hk').
      exists (String c m), s'. cbn. by rewrite Hc, Hm.
Qed.

Lemma star_sound greedy p k s z :
  star greedy p k s = Some z ->
  exists m s', s = (m ++ s')%string /\ string_forall p m = true /\ k s' = Some z.
Proof. destruct greedy; [apply star_greedy_sound|apply star_lazy_sound]. Qed.

(** A successful run of the matcher passes through a match of the
    pattern. *)
Lemma matcher_sound r s caps (k : string -> captures -> option A) z :
  matcher r s caps k = Some z ->
  exists s' caps', matches r s caps s' caps' /\ k s' caps' = Some z.
Proof.
  revert s caps k. induction r as [l|p|r1 IH1 r2 IH2|r1 IH1 r2 IH2|i r IH|g p|g p|p|];
    intros s caps k; cbn [matcher matches].
  - destruct (strip_literal l s) as [s'|] eqn:Hs; [|done].
    apply strip_literal_Some in Hs. intros H. by exists s', caps.
  - destruct s as [|c s]; [done|]. destruct (p c) eqn:Hc; [|done].
    intros H. exists s, caps. split; [|done]. split; [|done]. by exists c.
  - intros (s1 & caps1 & H1 & H)%IH1. apply IH2 in H as (s' & caps' & H2 & H).
    exists s', caps'. split; [|done]. by exists s1, caps1.
  - destruct (matcher r1 s caps k) eqn:H1.
    + intros [= <-]. apply IH1 in H1 as (s' & caps' & ? & ?).
      exists s', caps'. split; [by left|done].
    + intros (s' & caps' & ? & ?)%IH2. exists s', caps'. split; [by right|done].
  - intros (s' & caps1 & H1 & H)%IH. eexists s', _. split; [|exact H].
    by exists caps1.
  - intros (m & s' & -> & Hm & H)%star_sound. exists s', caps.
    split; [|done]. split; [|done]. by exists m.
  - destruct s as [|c s]; [done|]. destruct (p c) eqn:Hc; [|done].
    intros (m & s' & -> & Hm & H)%star_sound. exists s', caps.
    split; [|done]. split; [|done]. by exists c, m.
  - destruct s as [|c s].
    + intros H. exists EmptyString, caps. split; [|done]. split; [by left|done].
    + destruct (p c) eqn:Hc.
      * destruct (k s caps) eqn:Hk.
        -- intros [= <-]. exists s, caps. split; [|done].
           split; [|done]. right. by exists c.
        -- intros H. exists (String c s), caps. split; [|done].
           split; [by left|done].
      * intros H. exists (String c s), caps. split; [|done].
        split; [by left|done].
  - destruct s; [|done]. intros H. by exists EmptyString, caps.
Qed.
End MatcherFacts.

(** A match consumes a prefix of the input. *)
Lemma matches_prefix r s caps s' caps' :
  matches r s caps s' caps' -> exists m, s = (m ++ s')%string.
Proof.
  revert s caps s' caps'.
  induction r as [l|p|r1 IH1 r2 IH2|r1 IH1 r2 IH2|i r IH|g p|g p|p|];
    intros s caps s' caps'; cbn [matches].
  - intros [-> _]. by exists l.
  - intros [(c & -> & _) _]. by exists (String c EmptyString).
  - intros (s1 & caps1 & (m1 & ->)%IH1 & (m2 & ->)%IH2).
    exists (m1 ++ m2)%string. by rewrite string_app_assoc.
  - intros [H|H]; eauto.
  - intros (caps1 & H & _). eauto.
  - intros [(m & -> & _) _]. by exists m.
  - intros [(c & m & -> & _) _]. by exists (String c m).
  - intros [[->|(c & -> & _)] _]; [by exists EmptyString|by exists (String c EmptyString)].
  - intros (-> & -> & _). by exists EmptyString.
Qed.

Lemma match_at_sound r s s' caps :
  match_at r s = Some (s', caps) -> matches r s [] s' caps.
Proof.
  unfold match_at. intros (s1 & caps1 & H & [= -> ->])%matcher_sound. done.
Qed.

(** [exec] finds its match at some position of the input. *)
Lemma exec_from_sound r s i m :
  exec_from r s i = Some m ->
  exists pre t, s = (pre ++ t)%string /\ match_at r t = Some (m_after m, m_caps m).
Proof.
  revert i. induction s as [|c s IH]; intros i; cbn [exec_from].
  - destruct (match_at r "") as [[s' caps]|] eqn:H; [|done].
    intros [= <-]. by exists EmptyString, EmptyString.
  - destruct (match_at r (String c s)) as [[s' caps]|] eqn:H.
    + intros [= <-]. by exists EmptyString, (String c s).
    + intros (pre & t & -> & Ht)%IH. by exists (String c pre), t.
Qed.

Lemma exec_from_None r s i :
  exec_from r s i = None ->
  forall pre t, s = (pre ++ t)%string -> match_at r t = None.
Proof.
  revert i. induction s as [|c s IH]; intros i; cbn [exec_from].
  - destruct (match_at r "") as [[s' caps]|] eqn:H; [done|].
    intros _ pre t Hs. destruct pre; [|done]. cbn in Hs. by subst.
  - destruct (match_at r (String c s)) as [[s' caps]|] eqn:H; [done|].
    intros Hs pre t Heq. destruct pre as [|c' pre]; cbn in Heq.
    + by subst.
    + injection Heq as -> ->. by eapply IH.
Qed.

Lemma exec_from_Some r s i pre t :
  s = (pre ++ t)%string -> is_Some (match_at r t) -> is_Some (exec_from r s i).
Proof.
  intros Hs Ht. destruct (exec_from r s i) eqn:H; [done|].
  rewrite (exec_from_None _ _ _ H pre t Hs) in Ht. by destruct Ht.
Qed.

Section MatcherComplete.
Context {A : Type}.
Implicit Types (k : string -> option A) (p : ascii -> bool).

Lemma star_greedy_here p k s : is_Some (k s) -> is_Some (star_greedy p k s).
Proof.
  intros Hk. destruct s as [|c s]; cbn; [done|].
  destruct (p c); [|done]. by destruct (star_greedy p k s).
Qed.

Lemma star_greedy_complete p k m s' :
  string_forall p m = true -> is_Some (k s') ->
  is_Some (star_greedy p k (m ++ s')).
Proof.
  intros Hm Hk. induction m as [|c m IH]; cbn.
  - by apply star_greedy_here.
  - cbn in Hm. apply andb_prop in Hm as [Hc Hm]. rewrite Hc.
    specialize (IH Hm). destruct (star_greedy p k (m ++ s')); [done|].
    by destruct IH.
Qed.

Lemma star_lazy_complete p k m s' :
  string_forall p m = true -> is_Some (k s') ->
  is_Some (star_lazy p k (m ++ s')).
Proof.
  intros Hm Hk. induction m as [|c m IH]; cbn.
  - destruct s'; cbn; destruct Hk as [z ->]; done.
  - cbn in Hm. apply andb_prop in Hm as [Hc Hm]. rewrite Hc.
    destruct (k (String c (m ++ s'))); [done|]. by apply IH.
Qed.

Lemma star_complete greedy p k m s' :
  string_forall p m = true -> is_Some (k s') ->
  is_Some (star greedy p k (m ++ s')).
Proof. destruct greedy; [apply star_greedy_complete|apply star_lazy_complete]. Qed.

(** The matcher finds a way through whenever the pattern has a match
    that the continuation accepts. *)
Lemma matcher_complete r s caps (k : string -> captures -> option A) s' caps' :
  matches r s caps s' caps' -> is_Some (k s' caps') ->
  is_Some (matcher r s caps k).
Proof.
  revert s caps k s' caps'.
  induction r as [l|p|r1 IH1 r2 IH2|r1 IH1 r2 IH2|i r IH|g p|g p|p|];
    intros s caps k s' caps'; cbn [matcher matches].
  - intros [-> ->] Hk. by rewrite strip_literal_app.
  - intros [(c & -> & Hc) ->] Hk. by rewrite Hc.
  - intros (s1 & caps1 & H1 & H2) Hk.
    eapply IH1; [exact H1|]. by eapply IH2.
  - intros [H|H] Hk.
    + destruct (matcher r1 s caps k) eqn:H1; [done|].
      pose proof (IH1 _ _ _ _ _ H Hk) as Hs. rewrite H1 in Hs. by destruct Hs.
    + destruct (matcher r1 s caps k); [done|]. by eapply IH2.
  - intros (caps1 & H & ->) Hk. by eapply IH.
  - intros [(m & -> & Hm) ->] Hk. by apply star_complete.
  - intros [(c & m & -> & Hc & Hm) ->] Hk. rewrite Hc. by apply star_complete.
  - intros [[->|(c & -> & Hc)] ->] Hk.
    + destruct s as [|c s]; [done|]. destruct (p c); [|done].
      by destruct (k s caps).
    + rewrite Hc. by destruct (k s' caps).
  - by intros (-> & -> & ->) Hk.
Qed.
End MatcherComplete.

Lemma match_at_complete r s s' caps :
  matches r s [] s' caps -> is_Some (match_at r s).
Proof. intros H. by eapply matcher_complete. Qed.

(** [exec] finds a match exactly when the pattern matches somewhere in
    the input. *)
Lemma exec_Some r s : is_Some (exec r s) <-> pattern_found r s.
Proof.
  split.
  - intros [m (pre & t & -> & Ht)%exec_from_sound].
    exists pre, t, (m_after m), (m_caps m). split; [done|].
    by apply match_at_sound.
  - intros (pre & t & s' & caps & -> & H).
    eapply exec_from_Some; [done|]. by eapply match_at_complete.
Qed.

Lemma exec_None r s : exec r s = None <-> ~ pattern_found r s.
Proof. rewrite <- exec_Some. apply eq_None_not_Some. Qed.

(** * The marker of the recognizer output *)

Section MatcherTotal.
Context {A : Type}.

Lemma star_greedy_total p (k : string -> option A) s :
  (forall s', is_Some (k s')) -> is_Some (star_greedy p k s).
Proof.
  intros Hk. induction s as [|c s IH]; cbn; [done|].
  destruct (p c); [|done]. by destruct (star_greedy p k s).
Qed.
End MatcherTotal.

Lemma latexRegex_matches t s' caps :
  matches latexRegex t [] s' caps ->
  (exists rest, t = ("LaTeX:" ++ rest)%string) /\ exists g, caps = [(1%nat, g)].
Proof.
  cbn. intros (s1 & caps1 & [-> ->] & s2 & caps2 & [_ ->] & caps3 & [_ ->] & ->).
  split; [by exists s1|by eexists].
Qed.

Lemma latexRegex_match_at rest : is_Some (match_at latexRegex ("LaTeX:" ++ rest)).
Proof.
  unfold match_at. cbn.
  apply star_greedy_total. intros s1. by apply star_greedy_total.
Qed.

Lemma exec_latexRegex_None input :
  ~ occurs "LaTeX:" input -> exec latexRegex input = None.
Proof.
  intros Hno. destruct (exec latexRegex input) as [m|] eqn:H; [|done].
  apply exec_from_sound in H as (pre & t & -> & Ht).
  apply match_at_sound, latexRegex_matches in Ht as [[rest ->] _].
  destruct Hno. by exists pre, rest.
Qed.

Lemma extractLatexExpression_no_marker input :
  ~ occurs "LaTeX:" input -> extractLatexExpression input = Throw TypeError.
Proof.
  intros Hno. unfold extractLatexExpression. by rewrite exec_latexRegex_None.
Qed.

Lemma extractLatexExpression_marker input :
  occurs "LaTeX:" input -> exists e, extractLatexExpression input = Normal e.
Proof.
  intros (pre & post & ->). unfold extractLatexExpression.
  destruct (exec_from_Some latexRegex (pre ++ "LaTeX:" ++ post) 0 pre
              ("LaTeX:" ++ post) eq_refl (latexRegex_match_at post)) as [m Hm].
  unfold exec. rewrite Hm.
  apply exec_from_sound in Hm as (pre' & t & _ & Ht).
  apply match_at_sound, latexRegex_matches in Ht as [_ [g ->]].
  by eexists.
Qed.

(** * The hint pattern *)

(** A match of the hint pattern defines group 4 and leaves group 6
    undefined, or defines group 6 with a non-empty text. *)
Lemma hintRegex_captures t s' caps :
  matches hintRegex t [] s' caps ->
  (capture caps 6 = None /\ exists g, capture caps 4 = Some g)
  \/ exists c g, capture caps 6 = Some (String c g).
Proof.
  cbn [hintRegex matches].
  intros (s1 & caps1 & (caps1' & Hop & ->) & s2 & caps2 & [_ ->]
          & s3 & caps3 & (caps3' & Halt & ->) & [_ ->]).
  assert (caps1' = []) as ->.
  { by destruct Hop as [[_ ->]|[[_ ->]|[[_ ->]|[[_ ->]|[_ ->]]]]]. }
  destruct Halt as [(caps4 & (sa & capsa & [_ ->] & sb & capsb & [_ ->]
                              & (capsc & [_ ->] & ->)) & ->)
                   |(sa & capsa & (capsb & (sb & capsc & [_ ->] & sc & capsd
                       & (capse & [(c & m & -> & _) ->] & ->) & [Hsc ->]) & ->)
                     & [_ ->])].
  - left. cbn. split; [done|by eexists].
  - right. exists c, m. cbn [capture Nat.eqb]. f_equal.
    apply (consumed_app (String c m) sc).
Qed.

Lemma correctHint_completes result : exists r, correctHint result = Normal r.
Proof.
  unfold correctHint. destruct (exec hintRegex result) as [m|] eqn:H; [|by eexists].
  apply exec_from_sound in H as (pre & t & _ & Ht).
  apply match_at_sound, hintRegex_captures in Ht
    as [[H6 [g H4]]|(c & g & H6)]; rewrite H6; cbn.
  - rewrite H4. cbn. by eexists.
  - by eexists.
Qed.

(** * The correction loop *)

Lemma correctHints_completes index results :
  exists out, correctHints index results = Normal out.
Proof.
  revert index. induction results as [|r results IH]; intros index; cbn.
  - by eexists.
  - destruct (IH (S index)) as [out ->].
    destruct (Nat.even index); cbn; [by eexists|].
    destruct (correctHint_completes r) as [r' ->]. cbn. by eexists.
Qed.

Lemma correctHints_lookup index results out i r :
  correctHints index results = Normal out ->
  results !! i = Some r ->
  exists r', out !! i = Some r'
        /\ (if Nat.even (index + i) then Normal r else correctHint r) = Normal r'.
Proof.
  revert index out i. induction results as [|r0 results IH]; intros index out i; [done|].
  cbn [correctHints].
  destruct (if Nat.even index then Normal r0 else correctHint r0) as [r0'|e] eqn:H0;
    cbn [bind]; [|done].
  destruct (correctHints (S index) results) as [out'|e] eqn:Hrest; cbn [bind]; [|done].
  intros [= <-]. destruct i as [|i]; cbn [lookup list_lookup].
  - intros [= <-]. exists r0'. split; [done|]. by rewrite Nat.add_0_r.
  - intros Hi. destruct (IH _ _ _ Hrest Hi) as (r' & Hr' & Hc).
    exists r'. split; [done|]. by rewrite Nat.add_succ_r.
Qed.

Lemma correctHints_length index results out :
  correctHints index results = Normal out -> List.length out = List.length results.
Proof.
  revert index out. induction results as [|r0 results IH]; intros index out; cbn.
  - by intros [= <-].
  - destruct (if Nat.even index then Normal r0 else correctHint r0); cbn; [|done].
    destruct (correctHints (S index) results) eqn:Hrest; cbn; [|done].
    intros [= <-]. cbn. f_equal. by eapply IH.
Qed.

Lemma normalize_completes results : exists out, normalize results = Normal out.
Proof.
  unfold normalize. destruct (correctHints_completes 0 results) as [out ->].
  cbn. by eexists.
Qed.

Lemma normalize_lookup results out i r :
  normalize results = Normal out ->
  results !! i = Some r ->
  exists r', (if Nat.even i then Normal r else correctHint r) = Normal r'
        /\ out !! i = Some (cleanup r').
Proof.
  unfold normalize.
  destruct (correctHints 0 results) as [corrected|] eqn:Hc; cbn; [|done].
  intros [= <-] Hi.
  destruct (correctHints_lookup _ _ _ _ _ Hc Hi) as (r' & Hr' & Hr).
  exists r'. split; [done|]. by rewrite list_lookup_fmap, Hr'.
Qed.

(** C8 (amended). For an odd-indexed result in which the hint pattern
    matches nowhere, the correction pass leaves the text as it is and no
    error is raised: the normalizer completes, and what it returns at that
    index is the final cleanup pass applied to the original text. *)
Theorem normalizer_pass_through results i r :
  results !! i = Some r -> Nat.odd i = true -> ~ pattern_found hintRegex r ->
  exists out, normalize results = Normal out /\ out !! i = Some (cleanup r).
Proof.
  intros Hi Hodd Hno%exec_None.
  destruct (normalize_completes results) as [out Hout].
  exists out. split; [done|].
  destruct (normalize_lookup _ _ _ _ Hout Hi) as (r' & Hr' & ->).
  rewrite <- Nat.negb_odd, Hodd in Hr'. cbn in Hr'.
  unfold correctHint in Hr'. rewrite Hno in Hr'. by injection Hr' as <-.
Qed.

Lemma includes_occurs needle s : includes needle s = true <-> occurs needle s.
Proof.
  induction s as [|c s IH]; cbn [includes].
  - destruct (strip_literal needle "") as [s'|] eqn:H.
    + apply strip_literal_Some in H. split; [|done]. intros _. by exists EmptyString, s'.
    + split; [done|]. intros (pre & post & Hs).
      destruct pre; [|done]. cbn in Hs.
      apply strip_literal_Some in Hs. congruence.
  - destruct (strip_literal needle (String c s)) as [s'|] eqn:H.
    + apply strip_literal_Some in H. split; [|done]. intros _. by exists EmptyString, s'.
    + rewrite IH. split.
      * intros (pre & post & ->). by exists (String c pre), post.
      * intros (pre & post & Hs). destruct pre as [|c' pre]; cbn in Hs.
        -- apply strip_literal_Some in Hs. congruence.
        -- injection Hs as -> ->. by exists pre, post.
Qed.

(** * Global replacement of a literal *)

Lemma match_at_Lit l s :
  match_at (Lit l) s
  = match strip_literal l s with Some s' => Some (s', []) | None => None end.
Proof. done. Qed.

Lemma replace_all_go_skip r f x s :
  replace_all_go r f (String.length x) (x ++ s) = replace_all_go r f 0 s.
Proof. induction x as [|c x IH]; [done|]. cbn. apply IH. Qed.

Lemma replace_all_Lit_hit a l f s :
  replace_all (Lit (String a l)) f (String a l ++ s)
  = (f (String a l) [] ++ replace_all (Lit (String a l)) f s)%string.
Proof.
  unfold replace_all. change (String a l ++ s)%string with (String a (l ++ s)).
  cbn [replace_all_go]. rewrite match_at_Lit.
  change (String a (l ++ s)) with (String a l ++ s)%string.
  rewrite strip_literal_app, consumed_app.
  cbn [String.length]. f_equal. apply replace_all_go_skip.
Qed.

Lemma replace_all_Lit_miss l f c s :
  strip_literal l (String c s) = None ->
  replace_all (Lit l) f (String c s) = String c (replace_all (Lit l) f s).
Proof.
  intros H. unfold replace_all. cbn [replace_all_go]. by rewrite match_at_Lit, H.
Qed.

(** The global replace of [replaceComma] is the left-to-right
    replacement of the space-delimited token. *)
Lemma replaceComma_spec latexExpression :
  comma_replaced latexExpression (replaceComma latexExpression).
Proof.
  unfold replaceComma, commaRegex.
  remember (String.length latexExpression) as n eqn:Hn.
  revert latexExpression Hn. induction n as [n IH] using lt_wf_ind.
  intros s ->. destruct s as [|c s]; [constructor|].
  destruct (strip_literal " COMMA " (String c s)) as [s'|] eqn:H.
  - apply strip_literal_Some in H. rewrite H, replace_all_Lit_hit.
    apply cr_hit. eapply IH; [|done]. rewrite H, string_length_app. cbn. lia.
  - rewrite replace_all_Lit_miss by done. apply cr_skip.
    + by apply strip_literal_None.
    + eapply IH; [|done]. cbn. lia.
Qed.

Lemma comma_replaced_functional s t t' :
  comma_replaced s t -> comma_replaced s t' -> t = t'.
Proof.
  intros H. revert t'. induction H as [|s t H IH|c s t Hc H IH]; intros t' H'.
  - by inversion H'.
  - remember (" COMMA " ++ s)%string as u eqn:Hu.
    destruct H' as [|s0 t0 H0|c0 s0 t0 Hc0 H0].
    + done.
    + cbn in Hu. injection Hu as ->. f_equal. by apply IH.
    + by destruct (Hc0 s).
  - remember (String c s) as u eqn:Hu.
    destruct H' as [|s0 t0 H0|c0 s0 t0 Hc0 H0].
    + done.
    + by destruct (Hc s0).
    + injection Hu as -> ->. f_equal. by apply IH.
Qed.

(** * Settled promises *)

Lemma promise_all_Throw {A} (ps : list (completion A)) p e :
  p ∈ ps -> p = Throw e -> exists e', promise_all ps = Throw e'.
Proof.
  intros Hin ->. induction ps as [|p ps IH]; [by apply elem_of_nil in Hin|].
  cbn [promise_all]. apply elem_of_cons in Hin as [<-|Hin]; [by eexists|].
  destruct p; cbn [bind]; [|by eexists]. destruct (IH Hin) as [e' ->]. by eexists.
Qed.

Lemma promise_all_Normal {A} (ps : list (completion A)) :
  Forall (fun p => exists a, p = Normal a) ps ->
  exists rs, promise_all ps = Normal rs /\ ps = map Normal rs.
Proof.
  induction 1 as [|p ps [a ->] _ (rs & Hrs & ->)]; cbn [promise_all bind].
  - by exists [].
  - rewrite Hrs. by exists (a :: rs).
Qed.

Lemma normalize_length results out :
  normalize results = Normal out -> List.length out = List.length results.
Proof.
  unfold normalize.
  destruct (correctHints 0 results) as [corrected|] eqn:Hc; cbn; [|done].
  intros [= <-]. rewrite length_map. by eapply correctHints_length.
Qed.

(** * The handler *)

Section HandlerFacts.
Context {TP GP : Type}.
Variable PATH : string.
Variable seshat : string -> ExecResult.
Variable extractAllInformation :
  list N -> completion (jsobj (InkML TP GP string)).
Variable createFileFromInfo :
  jsobj (InkML TP GP (option string)) -> completion unit.

Local Abbreviation command := (seshatCommand PATH).
Local Abbreviation run := (recognize seshat).
Local Abbreviation handle :=
  (handleGet PATH seshat extractAllInformation createFileFromInfo).
Local Abbreviation assemble :=
  (assembleSingleInkML extractAllInformation createFileFromInfo).

Lemma recognize_errors number :
  invocation_errors PATH seshat number -> exists e, run (command number) = Throw e.
Proof.
  unfold invocation_errors, recognize.
  destruct (seshat (command number)) as [|stdout stderr]; [by eexists|].
  destruct stderr; [done|by eexists].
Qed.

Lemma recognize_no_marker number stdout stderr :
  seshat (command number) = ExecDone stdout stderr ->
  ~ occurs "LaTeX:" stdout ->
  exists e, run (command number) = Throw e.
Proof.
  intros Hrun Hno. unfold recognize. rewrite Hrun.
  destruct stderr; [|by eexists].
  rewrite extractLatexExpression_no_marker by done. by eexists.
Qed.

Lemma recognize_answers number :
  invocation_answers PATH seshat number -> exists expr, run (command number) = Normal expr.
Proof.
  intros (stdout & Hrun & Hmark). unfold recognize. rewrite Hrun.
  destruct (extractLatexExpression_marker _ Hmark) as [e ->]. by eexists.
Qed.

(** A rejected invocation rejects the batch, and the handler answers
    with the generic failure. *)
Lemma handleGet_rejected numbers number e :
  number ∈ numbers -> run (command number) = Throw e ->
  handle numbers = Status500 "Internal Server Error".
Proof.
  intros Hin He. unfold handleGet, handleGet_try, buildSeshatCommands.
  destruct (promise_all_Throw (map run (map command numbers))
              (run (command number)) e) as [e' ->]; [|done..].
  apply list_elem_of_fmap. exists (command number). split; [done|].
  apply list_elem_of_fmap. by exists number.
Qed.

(** C9 (amended). For every recognizer result, the recognition step
    yields the extracted expression in which the occurrences of [COMMA]
    with a space on either side, taken from left to right without overlap,
    are replaced by a comma and a space; every other character, and so
    every other occurrence of [COMMA], is kept. *)
Theorem comma_replacement cmd stdout latexExpression :
  seshat cmd = ExecDone stdout "" ->
  extractLatexExpression stdout = Normal latexExpression ->
  exists payload,
    run cmd = Normal payload /\ comma_replaced latexExpression payload.
Proof.
  intros Hrun Hextract. exists (replaceComma latexExpression).
  split; [|apply replaceComma_spec].
  unfold recognize. by rewrite Hrun, Hextract.
Qed.

(** C7 (amended). If an invocation of the batch signals an error (the
    process fails or its error channel is not empty), the caller receives
    the generic failure and no result list. If every invocation answers
    with an empty error channel and an output that has the [LaTeX:] marker,
    and the merge step completes, the caller receives one result string per
    input identifier, in input order: the result at index [i] is the
    cleaned-up expression of the [i]-th identifier, corrected first when
    [i] is odd. *)
Theorem handleGet_all_or_nothing numbers :
  ((exists number, number ∈ numbers /\ invocation_errors PATH seshat number) ->
   handle numbers = Status500 "Internal Server Error")
  /\ ((forall number, number ∈ numbers -> invocation_answers PATH seshat number) ->
      assemble numbers = Normal tt ->
      exists results,
        handle numbers = Sent results
        /\ List.length results = List.length numbers
        /\ forall i number,
             numbers !! i = Some number ->
             exists expr r,
               run (command number) = Normal expr
               /\ (if Nat.even i then Normal expr else correctHint expr) = Normal r
               /\ results !! i = Some (cleanup r)).
Proof.
  split.
  - intros (number & Hin & [e He]%recognize_errors). by eapply handleGet_rejected.
  - intros Hok Hasm.
    destruct (promise_all_Normal (map run (map command numbers)))
      as (exprs & Hall & Hexprs).
    { apply Forall_forall. intros p (cmd & -> & (n & -> & Hn)%list_elem_of_fmap)%list_elem_of_fmap.
      destruct (recognize_answers n (Hok n Hn)) as [expr ->]. by eexists. }
    destruct (normalize_completes exprs) as [results Hnorm].
    exists results. split_and!.
    + unfold handleGet, handleGet_try, buildSeshatCommands.
      rewrite Hall. cbn [bind]. rewrite Hnorm. cbn [bind]. by rewrite Hasm.
    + rewrite (normalize_length _ _ Hnorm).
      apply (f_equal (@List.length _)) in Hexprs. by rewrite !length_map in Hexprs.
    + intros i n Hi.
      assert (Hexpr : exists expr, exprs !! i = Some expr
                            /\ run (command n) = Normal expr).
      { apply (f_equal (fun l => l !! i)) in Hexprs.
        rewrite !list_lookup_fmap, Hi in Hexprs. cbn in Hexprs.
        symmetry in Hexprs. apply fmap_Some in Hexprs as (expr & Hexpr & Heq).
        by exists expr. }
      destruct Hexpr as (expr & Hexpr & Hrec).
      destruct (normalize_lookup _ _ _ _ Hnorm Hexpr) as (r & Hr & Hres).
      by exists expr, r.
Qed.

(** C10. For a recognizer output without the [LaTeX:] marker,
    [extractLatexExpression] returns no value (neither [null] nor a
    string): it throws a [TypeError]; and one such output in a batch makes
    the whole request fail with the generic failure response. *)
Theorem marker_less_output_fails stdout :
  ~ occurs "LaTeX:" stdout ->
  extractLatexExpression stdout = Throw TypeError
  /\ forall numbers number stderr,
       number ∈ numbers ->
       seshat (command number) = ExecDone stdout stderr ->
       handle numbers = Status500 "Internal Server Error".
Proof.
  intros Hno. split; [by apply extractLatexExpression_no_marker|].
  intros numbers number stderr Hin Hrun.
  destruct (recognize_no_marker _ _ _ Hrun Hno) as [e He].
  by eapply handleGet_rejected.
Qed.
End HandlerFacts.

(** * Worked examples *)

Example ToString_examples :
  ToString 0 = "0" /\ ToString 42 = "42" /\ ToString 4294967294 = "4294967294".
Proof. by vm_compute. Qed.

Example is_array_index_examples :
  is_array_index "12" = Some 12 /\ is_array_index "012" = None
  /\ is_array_index "4294967295" = None /\ is_array_index "out12.inkml" = None.
Proof. by vm_compute. Qed.

(** Properties are enumerated with the array indices first, in ascending
    order, then the other keys in the order they were created. *)
Example obj_set_enumeration :
  own_keys (obj_set "10" 1%nat (obj_set "b" 2%nat (obj_set "2" 3%nat
             (obj_set "a" 4%nat (obj_set "10" 5%nat [])))))
  = ["2"; "10"; "a"; "b"].
Proof. by vm_compute. Qed.

Example modifyIDsToUnique_sample :
  modifyIDsToUnique sample_batch
  = [("1", mkInkML [mkTrace "1" "10 20, 11 21"; mkTrace "2" "30 40, 31 41"]
                   [("1", mkTraceGroup [Some "1"; Some "2"] tt);
                    ("2", mkTraceGroup [Some "2"] tt)]);
     ("2", mkInkML [mkTrace "3" "10 20, 11 21"; mkTrace "4" "30 40, 31 41"]
                   [("3", mkTraceGroup [Some "3"; Some "4"] tt);
                    ("4", mkTraceGroup [Some "4"] tt)])].
Proof. by vm_compute. Qed.

Example exec_hintRegex_summation :
  exec hintRegex "=_{\sum i=1}^{n}3"
  = Some (mkMatch 0 "=_{\sum i=1}"
            [(2, "\sum i=1"); (3, "\sum i=1"); (4, "i=1"); (1, "=")]%nat
            "^{n}3").
Proof. by vm_compute. Qed.

(** The set form of a hint, and the [3] that stands for a misread closing
    brace in either form; even indices are left to the cleanup pass. *)
Example normalize_examples :
  normalize ["x"; "\leq_{\{x,y\}}"] = Normal ["x"; "\leq\{x,y\}"]
  /\ normalize ["x"; "=_{\{a\}3}"] = Normal ["x"; "=\{a\}"]
  /\ normalize ["x"; "\geq_{\sum k3}"] = Normal ["x"; "\geq\{k\}"]
  /\ normalize ["=_{\{a\}3}"; "y"] = Normal ["={\{a\}3}"; "y"].
Proof. by vm_compute. Qed.

Example cleanup_examples :
  cleanup "a_=b" = "a=b" /\ cleanup "={\{ab\}}" = "={ab}"
  /\ cleanup "x=_2" = "x=2".
Proof. by vm_compute. Qed.

Example extractLatexExpression_example :
  extractLatexExpression "Parsing...
LaTeX:   a + b  
Done" = Normal "a + b".
Proof. by vm_compute. Qed.

(** * The claims on concrete inputs *)

(** C6 (amended). For the hint [=_{\sum i=1}^{n}3] at an odd index, the
    correction pass followed by the cleanup pass gives [=\{i=1\}]: the
    whole hint text is replaced by the operator followed by the
    brace-wrapped text that stands between the summation symbol and the
    closing brace of the subscript; the summation symbol itself and what
    follows the subscript, the trailing [3] included, are dropped, and no
    underscore remains. *)
Theorem normalizer_summation_example results i :
  results !! i = Some "=_{\sum i=1}^{n}3" -> Nat.odd i = true ->
  exists out, normalize results = Normal out /\ out !! i = Some "=\{i=1\}".
Proof.
  intros Hi Hodd. destruct (normalize_completes results) as [out Hout].
  exists out. split; [done|].
  destruct (normalize_lookup _ _ _ _ Hout Hi) as (r' & Hr' & ->).
  rewrite <- Nat.negb_odd, Hodd in Hr'. cbn [negb] in Hr'.
  vm_compute in Hr'. by injection Hr' as <-.
Qed.

Lemma normalizer_summation_example_witness :
  ["x"; "=_{\sum i=1}^{n}3"] !! 1%nat = Some "=_{\sum i=1}^{n}3"
  /\ Nat.odd 1 = true
  /\ exists out,
       normalize ["x"; "=_{\sum i=1}^{n}3"] = Normal out
       /\ out !! 1%nat = Some "=\{i=1\}".
Proof.
  split; [reflexivity|]. split; [reflexivity|].
  apply (normalizer_summation_example ["x"; "=_{\sum i=1}^{n}3"] 1);
    reflexivity.
Defined.

(** C6 as stated fails: the result is not [=\{\sum i=1\}]. *)
Lemma normalizer_summation_counterexample :
  normalize ["x"; "=_{\sum i=1}^{n}3"] = Normal ["x"; "=\{i=1\}"]
  /\ normalize ["x"; "=_{\sum i=1}^{n}3"] <> Normal ["x"; "=\{\sum i=1\}"].
Proof. split; [by vm_compute|]. vm_compute. discriminate. Qed.

(** C8 as stated fails: an unmatched hint is not returned unchanged when
    the cleanup pass applies to it. *)
Lemma normalizer_pass_through_counterexample :
  ~ pattern_found hintRegex "=_{2}"
  /\ normalize ["x"; "=_{2}"] = Normal ["x"; "={2}"]
  /\ normalize ["x"; "=_{2}"] <> Normal ["x"; "=_{2}"].
Proof.
  split_and!.
  - apply exec_None. by vm_compute.
  - by vm_compute.
  - vm_compute. discriminate.
Qed.

Lemma normalizer_pass_through_witness :
  ["x"; "=_{2}"] !! 1%nat = Some "=_{2}"
  /\ Nat.odd 1 = true
  /\ ~ pattern_found hintRegex "=_{2}"
  /\ exists out,
       normalize ["x"; "=_{2}"] = Normal out
       /\ out !! 1%nat = Some (cleanup "=_{2}").
Proof.
  assert (H : ~ pattern_found hintRegex "=_{2}").
  { apply exec_None. vm_compute. reflexivity. }
  split; [reflexivity|]. split; [reflexivity|]. split; [exact H|].
  apply (normalizer_pass_through ["x"; "=_{2}"] 1 "=_{2}");
    [reflexivity|reflexivity|exact H].
Defined.

(** C9 as stated fails: a [COMMA] at the start, at the end, or right
    after a replaced one stays in the returned payload. *)
Lemma comma_replacement_counterexample :
  extractLatexExpression "LaTeX: COMMA a COMMA COMMA b COMMA"
  = Normal "COMMA a COMMA COMMA b COMMA"
  /\ replaceComma "COMMA a COMMA COMMA b COMMA" = "COMMA a, COMMA b COMMA"
  /\ occurs "COMMA" "COMMA a, COMMA b COMMA".
Proof.
  split_and!; [by vm_compute..|]. by exists EmptyString, " a, COMMA b COMMA".
Qed.



Lemma unifier_uniqueness_witness :
  object_groups sample_batch
  /\ List.length (all_traces (modifyIDsToUnique sample_batch))
     = trace_count sample_batch
  /\ NoDup (map id (all_traces (modifyIDsToUnique sample_batch)))
  /\ List.length (all_groups (modifyIDsToUnique sample_batch))
     = group_count sample_batch
  /\ NoDup (own_keys (all_groups (modifyIDsToUnique sample_batch))).
Proof.
  assert (Hkeys : NoDup ["0"; "1"]).
  { apply NoDup_cons. split; [|apply NoDup_singleton].
    intros H%list_elem_of_singleton. discriminate H. }
  assert (H : object_groups sample_batch).
  { unfold object_groups, sample_batch. repeat (apply Forall_cons; split);
      [exact Hkeys|exact Hkeys|apply Forall_nil_2]. }
  split; [exact H|]. apply (unifier_uniqueness sample_batch H).
Defined.

Lemma unifier_referential_integrity_witness :
  references_local sample_batch
  /\ forall key g r,
       (key, g) ∈ all_groups (modifyIDsToUnique sample_batch) ->
       r ∈ traceDataRefs g ->
       exists t, t ∈ all_traces (modifyIDsToUnique sample_batch)
            /\ r = Some (id t).
Proof.
  assert (H : references_local sample_batch).
  { unfold references_local, local_reference, sample_batch, sample_document.
    cbn. repeat constructor. }
  split; [exact H|]. apply (unifier_referential_integrity sample_batch H).
Defined.

Lemma unifier_order_preservation_witness :
  sample_batch !! 1%nat = Some ("2", sample_document)
  /\ exists doc',
       modifyIDsToUnique sample_batch !! 1%nat = Some ("2", doc')
       /\ traces doc'
          = (assignUniqueTraceIDs (traces sample_document)
               (1 + N.of_nat (trace_count (take 1 sample_batch)))).1
       /\ List.length (traces doc') = List.length (traces sample_document)
       /\ forall i t,
            traces sample_document !! i = Some t ->
            traces doc' !! i
            = Some (mkTrace
                      (ToString (1 + N.of_nat (trace_count (take 1 sample_batch))
                                 + N.of_nat i))
                      (trace_rest t)).
Proof.
  split; [reflexivity|].
  apply (unifier_order_preservation sample_batch 1 "2" sample_document).
  reflexivity.
Defined.

Lemma unifier_deterministic_order_witness :
  NoDup (sample_entries.*1)
  /\ sample_entries' ≡ₚ sample_entries
  /\ filter created_order sample_entries' = filter created_order sample_entries
  /\ modifyIDsToUnique (object_of sample_entries')
     = modifyIDsToUnique (object_of sample_entries)
  /\ exists order,
       order ≡ₚ sample_entries
       /\ enumeration_order order
       /\ filter created_order order = filter created_order sample_entries
       /\ own_keys (modifyIDsToUnique (object_of sample_entries))
          = own_keys order
       /\ (forall j j' n n' doc doc',
             order !! j = Some (ToString n, doc) ->
             order !! j' = Some (ToString n', doc') ->
             n < 4294967295 -> n' < 4294967295 ->
             n < n' <-> (j < j')%nat)
       /\ forall j outFile doc,
            order !! j = Some (outFile, doc) ->
            exists doc',
              modifyIDsToUnique (object_of sample_entries) !! j
              = Some (outFile, doc')
              /\ map id (traces doc')
                 = map ToString
                     (Nseq (1 + N.of_nat (trace_count (take j order)))
                           (List.length (traces doc))).
Proof.
  assert (H1 : NoDup (sample_entries.*1)).
  { cbn. repeat (apply NoDup_cons; split);
      [| | | |apply NoDup_nil_2];
      rewrite ?elem_of_cons, elem_of_nil; intros H;
      repeat (destruct H as [H|H]; [discriminate H|]); exact H. }
  assert (H2 : sample_entries' ≡ₚ sample_entries).
  { exact (Permutation_app_comm
             [("b.inkml", dangling_document); ("2", sample_document);
              ("a.inkml", dangling_document)]
             [("5", sample_document)]). }
  assert (H3 : filter created_order sample_entries'
               = filter created_order sample_entries) by reflexivity.
  split; [exact H1|]. split; [exact H2|]. split; [exact H3|].
  apply (unifier_deterministic_order sample_entries sample_entries' H1 H2 H3).
Defined.

(** C4 as stated fails: the documents are not processed by ascending
    sequence number. Keys that are no array index enumerate in creation
    order: with file names for keys, and also with decimal sequence
    numbers from 2^32 - 1 on, the document created first is processed
    first, and the same documents created in the other order get other
    identifiers. *)
Lemma unifier_deterministic_order_counterexample :
  modifyIDsToUnique
    (object_of [("4294967296", small_document);
                ("4294967295", small_document)])
  = [("4294967296", mkInkML [mkTrace "1" "10 20"]
                            [("1", mkTraceGroup [Some "1"] tt)]);
     ("4294967295", mkInkML [mkTrace "2" "10 20"]
                            [("2", mkTraceGroup [Some "2"] tt)])]
  /\ modifyIDsToUnique
       (object_of [("4294967295", small_document);
                   ("4294967296", small_document)])
     = [("4294967295", mkInkML [mkTrace "1" "10 20"]
                               [("1", mkTraceGroup [Some "1"] tt)]);
        ("4294967296", mkInkML [mkTrace "2" "10 20"]
                               [("2", mkTraceGroup [Some "2"] tt)])]
  /\ modifyIDsToUnique
       (object_of [("out5.inkml", small_document);
                   ("out2.inkml", small_document)])
     = [("out5.inkml", mkInkML [mkTrace "1" "10 20"]
                               [("1", mkTraceGroup [Some "1"] tt)]);
        ("out2.inkml", mkInkML [mkTrace "2" "10 20"]
                               [("2", mkTraceGroup [Some "2"] tt)])].
Proof. split_and!; by vm_compute. Qed.

(** The documents whose keys are array indices are processed first, by
    ascending key, then the others in the order they were created. *)
Example object_of_sample :
  own_keys (object_of sample_entries) = ["2"; "5"; "b.inkml"; "a.inkml"]
  /\ map id (all_traces (modifyIDsToUnique (object_of sample_entries)))
     = ["1"; "2"; "3"; "4"; "5"; "6"].
Proof. by vm_compute. Qed.

(** C7 as stated fails: no invocation signals an error, and yet the
    caller receives the generic failure, because an output has no
    [LaTeX:] marker. *)
Lemma handleGet_all_or_nothing_counterexample :
  (forall number,
     ~ invocation_errors "/opt/seshat" (quiet_seshat "x + y") number)
  /\ handleGet "/opt/seshat" (quiet_seshat "x + y") no_documents write_ok [7]
     = Status500 "Internal Server Error".
Proof.
  split; [|by vm_compute].
  intros number H. unfold invocation_errors, quiet_seshat in H. by apply H.
Qed.

Lemma handleGet_all_or_nothing_witness :
  ((exists number, number ∈ [7; 8]
                   /\ invocation_errors "/opt/seshat" noisy_seshat number)
   /\ handleGet "/opt/seshat" noisy_seshat no_documents write_ok [7; 8]
      = Status500 "Internal Server Error")
  /\ (forall number,
        number ∈ [7; 8] ->
        invocation_answers "/opt/seshat"
          (quiet_seshat "LaTeX: =_{\sum i=1}^{n}3") number)
  /\ assembleSingleInkML no_documents write_ok [7; 8] = Normal tt
  /\ exists results,
       handleGet "/opt/seshat" (quiet_seshat "LaTeX: =_{\sum i=1}^{n}3")
         no_documents write_ok [7; 8] = Sent results
       /\ List.length results = 2%nat.
Proof.
  assert (H0 : exists number,
             number ∈ [7; 8]
             /\ invocation_errors "/opt/seshat" noisy_seshat number).
  { exists 7. split; [left|]. unfold invocation_errors, noisy_seshat.
    discriminate. }
  assert (H1 : forall number,
             number ∈ [7; 8] ->
             invocation_answers "/opt/seshat"
               (quiet_seshat "LaTeX: =_{\sum i=1}^{n}3") number).
  { intros number _. exists "LaTeX: =_{\sum i=1}^{n}3". split; [reflexivity|].
    exists EmptyString, " =_{\sum i=1}^{n}3". reflexivity. }
  assert (H2 : assembleSingleInkML no_documents write_ok [7; 8] = Normal tt)
    by reflexivity.
  split.
  { split; [exact H0|].
    exact (proj1 (handleGet_all_or_nothing "/opt/seshat" noisy_seshat
                    no_documents write_ok [7; 8]) H0). }
  split; [exact H1|]. split; [exact H2|].
  destruct (proj2 (handleGet_all_or_nothing "/opt/seshat"
                     (quiet_seshat "LaTeX: =_{\sum i=1}^{n}3")
                     no_documents write_ok [7; 8]) H1 H2)
    as (results & Hsent & Hlen & _).
  exists results. split; [exact Hsent|exact Hlen].
Defined.

Example handleGet_sample :
  handleGet "/opt/seshat" (quiet_seshat "LaTeX: =_{\sum i=1}^{n}3")
    no_documents write_ok [7; 8]
  = Sent ["={\sum i=1}^{n}3"; "=\{i=1\}"].
Proof. by vm_compute. Qed.

Lemma comma_replacement_witness :
  quiet_seshat "LaTeX: a COMMA b" "seshat" = ExecDone "LaTeX: a COMMA b" ""
  /\ extractLatexExpression "LaTeX: a COMMA b" = Normal "a COMMA b"
  /\ exists payload,
       recognize (quiet_seshat "LaTeX: a COMMA b") "seshat" = Normal payload
       /\ comma_replaced "a COMMA b" payload.
Proof.
  split; [reflexivity|]. split; [vm_compute; reflexivity|].
  apply (comma_replacement (quiet_seshat "LaTeX: a COMMA b") "seshat"
           "LaTeX: a COMMA b" "a COMMA b");
    [reflexivity|vm_compute; reflexivity].
Defined.

Example recognize_comma :
  recognize (quiet_seshat "LaTeX: a COMMA b") "seshat" = Normal "a, b".
Proof. by vm_compute. Qed.

Lemma marker_less_output_fails_witness :
  ~ occurs "LaTeX:" "x + y"
  /\ extractLatexExpression "x + y" = Throw TypeError
  /\ forall numbers number stderr,
       number ∈ numbers ->
       quiet_seshat "x + y" (seshatCommand "/opt/seshat" number)
       = ExecDone "x + y" stderr ->
       handleGet "/opt/seshat" (quiet_seshat "x + y") no_documents write_ok
         numbers
       = Status500 "Internal Server Error".
Proof.
  assert (H : ~ occurs "LaTeX:" "x + y").
  { intros Hocc. apply includes_occurs in Hocc. vm_compute in Hocc.
    discriminate Hocc. }
  split; [exact H|].
  apply (marker_less_output_fails "/opt/seshat" (quiet_seshat "x + y")
           no_documents write_ok "x + y" H).
Defined.

(** * More on the unifier *)

Section ObjectAppend.
Context {V : Type}.
Implicit Types (o : jsobj V) (k : string) (v : V).

Lemma obj_insert_last k v o :
  Forall (fun k' => key_before k k' = false) (own_keys o) ->
  obj_insert k v o = o ++ [(k, v)].
Proof.
  induction o as [|[k' v'] o IH]; cbn; [done|].
  intros [Hk Ho]%Forall_cons. rewrite Hk. f_equal. by apply IH.
Qed.

Lemma key_before_after k k' :
  enumerates_before k' k -> key_before k k' = false.
Proof.
  intros Hb. destruct (key_before k k') eqn:H; [|done].
  apply key_before_index in H as (n & Hn & Hlt).
  destruct Hb as [Hb|Hb]; [|congruence].
  apply key_before_index in Hb as (n' & Hn' & Hlt').
  specialize (Hlt _ Hn'). specialize (Hlt' _ Hn). lia.
Qed.

(** Creating a property whose place is after all the others appends
    it. *)
Lemma obj_set_last k v o :
  k ∉ own_keys o -> enumeration_order (o ++ [(k, v)]) ->
  obj_set k v o = o ++ [(k, v)].
Proof.
  intros Hk Ho. unfold obj_set.
  apply hasOwnProperty_false in Hk. rewrite Hk.
  apply obj_insert_last. apply Forall_forall. intros k' Hk'.
  apply key_before_after.
  unfold enumeration_order in Ho. rewrite own_keys_app in Ho.
  eapply StronglySorted_app_1_elem_of; [exact Ho|exact Hk'|]. cbn. left.
Qed.
End ObjectAppend.

Lemma key_before_counter n c :
  c < n -> key_before (ToString n) (ToString c) = false.
Proof.
  intros Hlt. unfold key_before.
  destruct (is_array_index (ToString n)) as [m|] eqn:Hn; [|done].
  apply is_array_index_Some in Hn as [->%ToString_inj Hm].
  rewrite is_array_index_ToString by lia. apply N.ltb_ge. lia.
Qed.

Section GroupOrder.
Context {TP GP : Type}.
Abbreviation Group := (TraceGroup GP).
Abbreviation Document := (InkML TP GP).

Lemma rewrite_fold_append changes (tg : jsobj (Group string)) acc :
  NoDup (own_keys acc ++ own_keys tg) ->
  StronglySorted enumerates_before (own_keys acc ++ own_keys tg) ->
  fold_left (rewriteGroup changes) tg acc
  = acc ++ map (fun e => (e.1, rewriteRefs changes e.2)) tg.
Proof.
  revert acc. induction tg as [|[g d] tg IH]; intros acc Hnd Hs; cbn.
  - by rewrite app_nil_r.
  - unfold rewriteGroup at 2. cbn [fst snd].
    assert (Hkeys : forall v : Group (option string),
               own_keys (acc ++ [(g, v)]) ++ own_keys tg
               = own_keys acc ++ own_keys ((g, d) :: tg)).
    { intros v. rewrite own_keys_app. cbn. by rewrite <- app_assoc. }
    rewrite obj_set_last.
    + rewrite IH; rewrite ?Hkeys; [|done..]. by rewrite <- app_assoc.
    + apply NoDup_app in Hnd as (_ & Hdisj & _). intros Hin.
      apply (Hdisj _ Hin). left.
    + unfold enumeration_order. rewrite own_keys_app. cbn.
      replace (own_keys acc ++ own_keys ((g, d) :: tg))
        with ((own_keys acc ++ [g]) ++ own_keys tg) in Hs
        by (cbn; by rewrite <- app_assoc).
      by apply StronglySorted_app_1_l in Hs.
Qed.

(** The reference rewrite keeps the groups of an object in their
    order. *)
Lemma updateTraceDataRefs_ordered (tg : jsobj (Group string)) changes :
  NoDup (own_keys tg) -> enumeration_order tg ->
  updateTraceDataRefs tg changes
  = map (fun e => (e.1, rewriteRefs changes e.2)) tg.
Proof.
  intros Hnd Hs. unfold updateTraceDataRefs. by rewrite rewrite_fold_append.
Qed.

Lemma number_fold_append {R} (tg : jsobj (Group R)) acc c :
  Forall (fun k' => exists m, m < c /\ k' = ToString m) (own_keys acc) ->
  (fold_left numberGroup tg (acc, c)).1
  = acc ++ zip (map ToString (Nseq c (List.length tg))) (map snd tg).
Proof.
  revert acc c. induction tg as [|[g d] tg IH]; intros acc c Hacc; cbn.
  - by rewrite app_nil_r.
  - unfold numberGroup at 2. cbn [fst snd].
    assert (Hset : obj_set (ToString c) d acc = acc ++ [(ToString c, d)]).
    { unfold obj_set.
      assert (Hc : ToString c ∉ own_keys acc).
      { intros Hin. eapply Forall_forall in Hacc; [|exact Hin].
        destruct Hacc as (m & Hm & ->%ToString_inj). lia. }
      apply hasOwnProperty_false in Hc. rewrite Hc.
      apply obj_insert_last. eapply Forall_impl; [exact Hacc|].
      intros k' (m & Hm & ->). by apply key_before_counter. }
    rewrite Hset, IH.
    + by rewrite <- app_assoc.
    + rewrite own_keys_app. apply Forall_app. split.
      * eapply Forall_impl; [exact Hacc|]. intros k' (m & Hm & ->).
        exists m. split; [lia|done].
      * repeat constructor. exists c. split; [lia|done].
Qed.

(** The groups are numbered in their order. *)
Lemma assignUniqueTraceGroupIDs_ordered {R} (tg : jsobj (Group R)) c :
  (assignUniqueTraceGroupIDs tg c).1
  = zip (map ToString (Nseq c (List.length tg))) (map snd tg).
Proof. unfold assignUniqueTraceGroupIDs. by rewrite number_fold_append. Qed.

Lemma Nseq_lookup c n i : (i < n)%nat -> Nseq c n !! i = Some (c + N.of_nat i).
Proof.
  revert c i. induction n as [|n IH]; intros c i Hi; [lia|].
  destruct i as [|i]; cbn.
  - f_equal. lia.
  - rewrite IH by lia. f_equal. lia.
Qed.

Lemma unifyFrom_lookup_counters (b : jsobj (Document string)) tc gc j outFile doc :
  object_groups b ->
  b !! j = Some (outFile, doc) ->
  unifyFrom b tc gc !! j
  = Some (outFile,
          (unifyDocument doc (tc + N.of_nat (trace_count (take j b)))
                             (gc + N.of_nat (group_count (take j b)))).1.1).
Proof.
  revert tc gc j. induction b as [|[outFile' doc'] b IH]; intros tc gc j Hwf; [done|].
  apply Forall_cons in Hwf as [Hdoc Hwf]. cbn in Hdoc.
  rewrite unifyFrom_cons. destruct j as [|j]; cbn [lookup list_lookup take].
  - intros [= -> ->]. unfold trace_count, group_count. cbn.
    by rewrite !N.add_0_r.
  - intros H. etrans; [exact (IH _ _ j Hwf H)|].
    assert (Htc : (unifyDocument doc' tc gc).1.2
                  = tc + N.of_nat (List.length (traces doc')))
      by (by rewrite unifyDocument_eq).
    assert (Hgc : (unifyDocument doc' tc gc).2
                  = gc + N.of_nat (List.length (traceGroups doc'))).
    { rewrite unifyDocument_eq. cbn [snd].
      by rewrite updateTraceDataRefs_length. }
    rewrite Htc, Hgc.
    replace (tc + N.of_nat (List.length (traces doc'))
             + N.of_nat (trace_count (take j b)))
      with (tc + N.of_nat (trace_count ((outFile', doc') :: take j b)))
      by (unfold trace_count; cbn; lia).
    replace (gc + N.of_nat (List.length (traceGroups doc'))
             + N.of_nat (group_count (take j b)))
      with (gc + N.of_nat (group_count ((outFile', doc') :: take j b)))
      by (unfold group_count; cbn; lia).
    done.
Qed.
End GroupOrder.

Section UnifierOrder.
Context {TP GP : Type}.
Implicit Types (b : jsobj (InkML TP GP string)).

(** X1. The merged trace identifiers are dense and in order: read
    document by document and trace by trace, they are [String(1)],
    [String(2)], ... up to the number of traces of the batch. *)
Theorem unifier_dense_trace_ids b :
  map id (all_traces (modifyIDsToUnique b))
  = map ToString (Nseq 1 (trace_count b)).
Proof. apply unifyFrom_trace_ids. Qed.

(** X2. The unifier neither adds, drops nor reorders documents: the
    output has the keys of the input in the same order, and each document
    keeps its number of traces and, in order, their payloads. *)
Theorem unifier_keeps_documents b :
  own_keys (modifyIDsToUnique b) = own_keys b
  /\ Forall2 (fun e e' =>
                e'.1 = e.1
                /\ map trace_rest (traces e'.2) = map trace_rest (traces e.2))
             b (modifyIDsToUnique b).
Proof.
  split; [apply unifyFrom_keys|]. unfold modifyIDsToUnique.
  generalize 1 at 1 as tc. generalize 1 as gc.
  induction b as [|[outFile doc] b IH]; intros gc tc; [constructor|].
  rewrite unifyFrom_cons. constructor; [|apply IH].
  split; [done|]. rewrite unifyDocument_eq. cbn [fst snd traces].
  clear. generalize tc. induction (traces doc) as [|t ts IHts]; intros c; [done|].
  cbn. specialize (IHts (c + 1)).
  destruct (assignUniqueTraceIDs ts (c + 1)). cbn in *. by rewrite IHts.
Qed.

(** X3. Group order: in a batch of objects, the groups of the document at
    position [j] keep their enumeration order and get consecutive
    identifiers from the group counter: the group at index [i] becomes the
    group [String(start + i)], where [start - 1] is the number of groups of
    the documents before it, and carries the rewritten references of that
    group. *)
Theorem unifier_group_order b j outFile doc :
  object_groups b -> enumeration_order (traceGroups doc) ->
  b !! j = Some (outFile, doc) ->
  exists doc',
    modifyIDsToUnique b !! j = Some (outFile, doc')
    /\ List.length (traceGroups doc') = List.length (traceGroups doc)
    /\ forall i group data,
         traceGroups doc !! i = Some (group, data) ->
         traceGroups doc' !! i
         = Some (ToString (1 + N.of_nat (group_count (take j b)) + N.of_nat i),
                 rewriteRefs (traceIdChanges (traces doc) (traces doc')) data).
Proof.
  intros Hwf Hord Hb. eexists. split; [by apply unifyFrom_lookup_counters|].
  assert (Hnd : NoDup (own_keys (traceGroups doc))).
  { apply (proj1 (Forall_forall _ _) Hwf (outFile, doc)).
    apply list_elem_of_lookup. by exists j. }
  rewrite unifyDocument_eq. cbn [fst snd traces traceGroups].
  rewrite assignUniqueTraceGroupIDs_ordered, updateTraceDataRefs_ordered by done.
  rewrite !length_map. split.
  - rewrite length_zip, !length_map, Nseq_length. lia.
  - intros i group data Hi.
    assert (Hlt : (i < List.length (traceGroups doc))%nat)
      by (by eapply lookup_lt_Some).
    apply lookup_zip_with_Some. eexists _, _. split; [done|]. split.
    + rewrite list_lookup_fmap, Nseq_lookup by done. done.
    + by rewrite !list_lookup_fmap, Hi.
Qed.

(** X4. When several traces of a document carry the same original
    identifier, a reference to it is rewritten to the new identifier of the
    last of them; with distinct identifiers, to the new identifier of the
    trace itself. *)
Theorem traceIdChanges_last_wins (ts1 ts2 : list (Trace TP)) t c :
  id t ∉ map id ts2 ->
  obj_get (traceIdChanges (ts1 ++ t :: ts2)
             (assignUniqueTraceIDs (ts1 ++ t :: ts2) c).1) (id t)
  = Some (ToString (c + N.of_nat (List.length ts1))).
Proof. apply traceIdChanges_middle. Qed.

(** X5. Documents added at the end of a batch do not change what the
    unifier gives to the earlier ones: the run on [b1 ++ b2] starts with
    the run on [b1] and goes on with [b2] from the counters reached. *)
Theorem unifier_prefix_stable b1 b2 :
  exists gc,
    modifyIDsToUnique (b1 ++ b2)
    = modifyIDsToUnique b1
      ++ unifyFrom b2 (1 + N.of_nat (trace_count b1)) gc
    /\ (object_groups b1 -> gc = 1 + N.of_nat (group_count b1)).
Proof.
  unfold modifyIDsToUnique. generalize 1 at 1 3 5 as tc. generalize 1 as gc.
  induction b1 as [|[outFile doc] b1 IH]; intros gc tc.
  - exists gc. unfold trace_count, group_count. cbn. rewrite !N.add_0_r.
    split; [done|]. intros _. lia.
  - cbn [app]. rewrite !unifyFrom_cons.
    destruct (IH (unifyDocument doc tc gc).2 (unifyDocument doc tc gc).1.2)
      as (gc' & Heq & Hgc).
    exists gc'. split.
    + rewrite Heq. cbn [app]. do 3 f_equal.
      rewrite unifyDocument_eq. unfold trace_count. cbn. lia.
    + intros [Hdoc Hwf]%Forall_cons. rewrite (Hgc Hwf).
      rewrite unifyDocument_eq. cbn [snd].
      rewrite updateTraceDataRefs_length by done.
      unfold group_count. cbn. lia.
Qed.
End UnifierOrder.

(** * More on the recognizer output *)

Lemma trimStart_first s c : first_char (trimStart s) = Some c -> is_space c = false.
Proof.
  induction s as [|a s IH]; cbn [trimStart]; [done|].
  destruct (is_space a) eqn:Ha; [exact IH|]. cbn [first_char]. by intros [= <-].
Qed.

Lemma trimStart_id s :
  (forall c, first_char s = Some c -> is_space c = false) -> trimStart s = s.
Proof.
  destruct s as [|a s]; cbn [trimStart first_char]; [done|].
  intros H. by rewrite (H a eq_refl).
Qed.

Lemma trimEnd_last s c : last_char (trimEnd s) = Some c -> is_space c = false.
Proof.
  induction s as [|a s IH]; cbn [trimEnd]; [done|].
  destruct (trimEnd s) as [|b t] eqn:Ht.
  - destruct (is_space a) eqn:Ha; cbn [last_char]; [done|]. by intros [= <-].
  - cbn [last_char]. exact IH.
Qed.

Lemma trimEnd_first_inv s c : first_char (trimEnd s) = Some c -> first_char s = Some c.
Proof.
  destruct s as [|a s]; cbn [trimEnd first_char]; [done|].
  destruct (trimEnd s); [by destruct (is_space a)|done].
Qed.

Lemma trim_no_margin s : no_margin is_space (trim s).
Proof.
  unfold trim. split; [|apply trimEnd_last].
  intros c Hc. apply trimEnd_first_inv in Hc. by eapply trimStart_first.
Qed.

Lemma string_forall_trimStart p s :
  string_forall p s = true -> string_forall p (trimStart s) = true.
Proof.
  induction s as [|a s IH]; cbn [trimStart string_forall]; [done|].
  intros [Ha Hs]%andb_prop. destruct (is_space a); [by apply IH|].
  cbn [string_forall]. by rewrite Ha, Hs.
Qed.

Lemma string_forall_trimEnd p s :
  string_forall p s = true -> string_forall p (trimEnd s) = true.
Proof.
  induction s as [|a s IH]; cbn [trimEnd string_forall]; [done|].
  intros [Ha Hs]%andb_prop. specialize (IH Hs).
  destruct (trimEnd s) as [|b t].
  - destruct (is_space a); cbn [string_forall]; [done|]. by rewrite Ha.
  - cbn [string_forall] in *. by rewrite Ha, IH.
Qed.

Lemma latexRegex_group t s' caps :
  matches latexRegex t [] s' caps ->
  exists g, caps = [(1%nat, g)] /\ string_forall dot g = true.
Proof.
  cbn. intros (s1 & caps1 & [-> ->] & s2 & caps2 & [_ ->]
               & caps3 & [(g & -> & Hg) ->] & ->).
  exists g. by rewrite consumed_app.
Qed.

(** X6. Whatever [extractLatexExpression] returns is one trimmed line: it
    has no line break in it and neither starts nor ends with
    whitespace. *)
Theorem extractLatexExpression_trimmed_line input e :
  extractLatexExpression input = Normal e ->
  string_forall dot e = true /\ no_margin is_space e.
Proof.
  unfold extractLatexExpression.
  destruct (exec latexRegex input) as [m|] eqn:Hm; [|done].
  apply exec_from_sound in Hm as (pre & t & _ & Ht).
  apply match_at_sound, latexRegex_group in Ht as (g & -> & Hg).
  cbn. intros [= <-]. split; [|apply trim_no_margin].
  unfold trim. by apply string_forall_trimEnd, string_forall_trimStart.
Qed.

Section GreedyMax.
Context {A : Type}.

Lemma star_greedy_max p (k : string -> option A) m s' z :
  string_forall p m = true ->
  (forall c, first_char s' = Some c -> p c = false) ->
  k s' = Some z -> star_greedy p k (m ++ s') = Some z.
Proof.
  intros Hm Hs Hk. induction m as [|a m IH]; cbn.
  - destruct s' as [|c s']; cbn; [done|]. by rewrite (Hs c eq_refl).
  - cbn in Hm. apply andb_prop in Hm as [Ha Hm]. by rewrite Ha, (IH Hm).
Qed.
End GreedyMax.

Lemma strip_literal_short l a b y :
  strip_literal l (a ++ b) = Some y ->
  (String.length l <= String.length a)%nat ->
  exists y', strip_literal l a = Some y'.
Proof.
  revert a. induction l as [|c l IH]; intros a; cbn; [by eexists|].
  destruct a as [|c' a]; cbn; [lia|].
  destruct (Ascii.eqb c c'); [|done]. intros H Hlen. apply (IH a H). lia.
Qed.

Lemma exec_from_skip r pre t i :
  (forall pre1 pre2, pre = (pre1 ++ pre2)%string -> pre2 <> EmptyString ->
                     match_at r (pre2 ++ t) = None) ->
  exec_from r (pre ++ t) i = exec_from r t (i + String.length pre).
Proof.
  revert i. induction pre as [|c pre IH]; intros i Hpre; cbn [append String.length].
  - by rewrite Nat.add_0_r.
  - cbn [exec_from].
    pose proof (Hpre EmptyString (String c pre) eq_refl) as Hnone.
    cbn [append] in Hnone. rewrite Hnone by done.
    rewrite IH; [f_equal; lia|].
    intros pre1 pre2 -> Hne. by apply (Hpre (String c pre1) pre2).
Qed.

Lemma exec_from_here r s i s' caps :
  match_at r s = Some (s', caps) ->
  exec_from r s i = Some (mkMatch i (consumed s s') caps s').
Proof. intros H. destruct s; cbn [exec_from]; by rewrite H. Qed.

Lemma latexRegex_match_line ws line rest :
  string_forall is_space ws = true ->
  string_forall dot line = true ->
  (forall c, first_char (line ++ rest) = Some c -> is_space c = false) ->
  (forall c, first_char rest = Some c -> dot c = false) ->
  match_at latexRegex ("LaTeX:" ++ ws ++ line ++ rest)
  = Some (rest, [(1%nat, line)]).
Proof.
  intros Hws Hline Hstart Hend. unfold match_at. cbn [latexRegex matcher].
  rewrite strip_literal_app. cbn [star].
  apply star_greedy_max; [exact Hws|exact Hstart|].
  erewrite star_greedy_max; [|exact Hline|exact Hend|reflexivity].
  by rewrite consumed_app.
Qed.

(** X7. The expression is what follows the first [LaTeX:] marker: the
    whitespace after the marker is skipped, line breaks included, then the
    text up to the end of that line is taken and trailing whitespace
    removed. *)
Theorem extractLatexExpression_first_marker pre ws line rest :
  ~ occurs "LaTeX:" (pre ++ "LaTeX") ->
  string_forall is_space ws = true ->
  string_forall dot line = true ->
  (forall c, first_char (line ++ rest) = Some c -> is_space c = false) ->
  (forall c, first_char rest = Some c -> dot c = false) ->
  extractLatexExpression (pre ++ "LaTeX:" ++ ws ++ line ++ rest)
  = Normal (trimEnd line).
Proof.
  intros Hfirst Hws Hline Hstart Hend. unfold extractLatexExpression, exec.
  rewrite exec_from_skip.
  - rewrite (exec_from_here _ _ _ _ _
               (latexRegex_match_line ws line rest Hws Hline Hstart Hend)).
    cbn [m_caps capture Nat.eqb]. unfold trim.
    f_equal. f_equal. apply trimStart_id. intros c Hc. apply Hstart.
    destruct line; [done|]. exact Hc.
  - intros pre1 pre2 -> Hne.
    destruct (match_at latexRegex (pre2 ++ "LaTeX:" ++ ws ++ line ++ rest))
      as [[s' caps]|] eqn:Hm; [|done].
    apply match_at_sound, latexRegex_matches in Hm as [[x Hx] _].
    destruct Hfirst. exists pre1.
    assert (Hstrip : strip_literal "LaTeX:"
              ((pre2 ++ "LaTeX") ++ ":" ++ ws ++ line ++ rest) = Some x).
    { apply strip_literal_Some. rewrite <- Hx.
      rewrite !string_app_assoc. done. }
    apply strip_literal_short in Hstrip as [y Hy].
    + apply strip_literal_Some in Hy. exists y.
      rewrite string_app_assoc. by rewrite Hy.
    + rewrite string_length_app. destruct pre2; [done|]. cbn. lia.
Qed.

(** * More on the normalizer *)

(** A global replace leaves a text without a match as it is. *)
Lemma replace_all_not_found r f s :
  ~ pattern_found r s -> replace_all r f s = s.
Proof.
  unfold replace_all. induction s as [|c s IH]; intros Hno.
  - cbn [replace_all_go].
    destruct (match_at r "") as [[s' caps]|] eqn:Hm; [|done].
    destruct Hno. exists EmptyString, EmptyString, s', caps.
    split; [done|]. by apply match_at_sound.
  - cbn [replace_all_go].
    destruct (match_at r (String c s)) as [[s' caps]|] eqn:Hm.
    + destruct Hno. exists EmptyString, (String c s), s', caps.
      split; [done|]. by apply match_at_sound.
    + f_equal. apply IH. intros (pre & t & s' & caps & -> & Ht).
      apply Hno. by exists (String c pre), t, s', caps.
Qed.

(** X8. A text in which none of the three cleanup patterns matches goes
    through the cleanup pass unchanged. *)
Theorem cleanup_unchanged result :
  ~ pattern_found underscoreRegex result ->
  ~ pattern_found extraBracesRegex result ->
  ~ pattern_found operatorUnderscoreRegex result ->
  cleanup result = result.
Proof.
  intros H1 H2 H3. unfold cleanup.
  rewrite (replace_all_not_found underscoreRegex) by done.
  rewrite (replace_all_not_found extraBracesRegex) by done.
  by apply replace_all_not_found.
Qed.

(** X9. The normalizer never throws: the read of group 4 is reached only
    when the summation alternative matched and defined it. It returns one
    result per input, and an even-indexed result is only cleaned up. *)
Theorem normalize_total results :
  exists out,
    normalize results = Normal out
    /\ List.length out = List.length results
    /\ forall i r, results !! i = Some r -> Nat.even i = true ->
                   out !! i = Some (cleanup r).
Proof.
  destruct (normalize_completes results) as [out Hout].
  exists out. split; [done|]. split; [by eapply normalize_length|].
  intros i r Hi Heven.
  destruct (normalize_lookup _ _ _ _ Hout Hi) as (r' & Hr' & ->).
  rewrite Heven in Hr'. by injection Hr' as <-.
Qed.

Section LazyFirst.
Context {A : Type}.

(** A lazy quantifier stops at the first position where the rest of the
    pattern matches. *)
Lemma star_lazy_first p (k : string -> option A) m s' z :
  string_forall p m = true ->
  (forall m1 m2, m = (m1 ++ m2)%string -> m2 <> EmptyString ->
                 k (m2 ++ s')%string = None) ->
  k s' = Some z -> star_lazy p k (m ++ s') = Some z.
Proof.
  intros Hm Hnone Hk. induction m as [|c m IH].
  - cbn [append]. destruct s'; cbn [star_lazy]; by rewrite Hk.
  - pose proof (Hnone EmptyString (String c m) eq_refl) as Hc.
    cbn [append] in Hc. cbn [append star_lazy]. rewrite Hc by done.
    cbn in Hm. apply andb_prop in Hm as [-> Hm]. apply IH; [done|].
    intros m1 m2 -> Hne. by apply (Hnone (String c m1) m2).
Qed.

(** The alternation of the five operators passes over the operator that
    stands at the position. *)
Lemma matcher_operator op s caps (k : string -> captures -> option A) :
  op ∈ hintOperators ->
  matcher (Alt (Lit "=") (Alt (Lit "\lt") (Alt (Lit "\gt")
             (Alt (Lit "\leq") (Lit "\geq")))))
          (op ++ s) caps k
  = k s caps.
Proof.
  unfold hintOperators. intros Hop.
  repeat (apply elem_of_cons in Hop as [->|Hop]);
    [| | | | |by apply elem_of_nil in Hop];
    cbn; by destruct (k s caps).
Qed.
End LazyFirst.

Lemma trailing3_removed payload :
  replace_first trailing3Regex (fun _ _ => "") (payload ++ "3") = payload.
Proof.
  induction payload as [|c p IH]; [done|].
  cbn [append replace_first].
  assert (Hnone : match_at trailing3Regex (String c (p ++ "3")) = None).
  { unfold match_at, trailing3Regex. cbn [matcher strip_literal].
    destruct (Ascii.eqb "3" c); [|done]. by destruct p. }
  by rewrite Hnone, IH.
Qed.

Lemma trailing3_absent g :
  last_char g <> Some "3"%char ->
  replace_first trailing3Regex (fun _ _ => "") g = g.
Proof.
  induction g as [|c g IH]; [done|]. intros Hlast.
  cbn [replace_first].
  assert (Hnone : match_at trailing3Regex (String c g) = None).
  { unfold match_at, trailing3Regex. cbn [matcher strip_literal].
    destruct (Ascii.eqb_spec "3" c) as [<-|]; [|done].
    destruct g; [|done]. by destruct Hlast. }
  rewrite Hnone. f_equal. apply IH. intros Hg. apply Hlast.
  destruct g; [done|]. exact Hg.
Qed.

Lemma consumed_cons c m s : consumed (String c (m ++ s)) s = String c m.
Proof. apply (consumed_app (String c m) s). Qed.

Lemma flat_set (g opt3 rest : string) :
  (("\{" ++ g ++ "\}" ++ opt3) ++ rest = "\{" ++ g ++ "\}" ++ opt3 ++ rest)%string.
Proof.
  rewrite (string_app_assoc "\{"), (string_app_assoc g), (string_app_assoc "\}").
  reflexivity.
Qed.
Lemma flat_sum (ws g rest : string) :
  (("\sum" ++ ws ++ g) ++ rest = "\sum" ++ ws ++ g ++ rest)%string.
Proof.
  rewrite (string_app_assoc "\sum"), (string_app_assoc ws). reflexivity.
Qed.

Lemma hintRegex_match_subscript op body post payload :
  op ∈ hintOperators ->
  hint_subscript post body payload ->
  exists caps,
    match_at hintRegex (op ++ "_{" ++ body ++ "}" ++ post) = Some (post, caps)
    /\ capture caps 1 = Some op
    /\ (if truthy (capture caps 6)
        then capture caps 6 = Some payload
        else exists g, capture caps 4 = Some g
                  /\ replace_first trailing3Regex (fun _ _ => "") g = payload).
Proof.
  intros Hop Hbody. unfold match_at, hintRegex.
  set (operators := Alt (Lit "=") _). cbn [matcher]. subst operators.
  rewrite matcher_operator by done.
  rewrite consumed_app. rewrite strip_literal_app.
  destruct Hbody as [ws g payload Hws Hg Hstart Hbrace Hpay
                    |g opt3 Hne Hg Hopt Hmin].
  - rewrite flat_sum, strip_literal_app. cbn [star].
    erewrite star_greedy_max;
      [|exact Hws
       |intros c Hc; destruct g; [|by apply Hstart];
        cbn in Hc; by injection Hc as <-
       |apply star_lazy_first; [exact Hg| |rewrite strip_literal_app; reflexivity]].
    + eexists. split; [reflexivity|]. cbn [capture Nat.eqb truthy].
      split; [done|]. eexists. split; [reflexivity|].
      rewrite consumed_app.
      destruct Hpay as [->|[-> Hlast]];
        [apply trailing3_removed|by apply trailing3_absent].
    + intros m1 m2 -> Hm2. destruct m2 as [|c m2]; [done|].
      cbn [append strip_literal].
      destruct (Ascii.eqb_spec "}" c) as [<-|]; [|done].
      destruct Hbrace. by exists m1, m2.
  - destruct g as [|c m]; [done|]. cbn [string_forall] in Hg.
    apply andb_prop in Hg as [Hc Hm].
    replace (strip_literal "\sum" (("\{" ++ String c m ++ "\}" ++ opt3) ++ "}" ++ post))
      with (@None string) by done.
    rewrite flat_set, strip_literal_app. cbn [append]. rewrite Hc. cbn [star].
    assert (Hearly : forall m1 m2 s1,
               m = (m1 ++ m2)%string -> m2 <> EmptyString ->
               strip_literal "\}" (m2 ++ "\}" ++ opt3 ++ "}" ++ post) = Some s1 ->
               strip_literal "}" s1 = None
               /\ forall s2, s1 = String "3" s2 -> strip_literal "}" s2 = None).
    { intros m1 m2 s1 -> Hm2 Hs1%strip_literal_Some.
      pose proof (Hmin (String c m1) m2 eq_refl ltac:(done) Hm2) as Hno.
      split.
      - destruct (strip_literal "}" s1) as [s2|] eqn:H2; [|done].
        apply strip_literal_Some in H2 as ->. destruct Hno.
        exists s2. left. exact Hs1.
      - intros s2 ->. destruct (strip_literal "}" s2) as [s3|] eqn:H2; [|done].
        apply strip_literal_Some in H2 as ->. destruct Hno.
        exists s3. right. exact Hs1. }
    destruct Hopt as [->| ->];
      (erewrite star_lazy_first;
       [|exact Hm
        |intros m1 m2 Hsplit Hm2; cbn beta;
         destruct (strip_literal "\}" _) as [s1|] eqn:H1; [|done];
         destruct (Hearly m1 m2 s1 Hsplit Hm2 H1) as [Hb H3];
         destruct s1 as [|c0 s1]; [done|]; rewrite Hb; unfold is_char;
         destruct (Ascii.eqb_spec "3" c0) as [<-|]; [|done];
         by rewrite (H3 s1 eq_refl)
        |reflexivity]);
      (eexists; split; [reflexivity|]; cbn [capture Nat.eqb truthy];
       split; [done|]).
    + by rewrite consumed_cons.
    + by rewrite consumed_cons.
Qed.

(** X10. A corrected hint is exactly the operator and the braced payload
    of the first match. When the first match of the hint pattern in the
    text is an operator, [_{], a subscript in the summation form or in the
    set form, and the closing brace, the corrected text is the operator,
    [\{], the trimmed payload of the subscript, and [\}]: the text before
    the match and the text after it are dropped, and so are the summation
    symbol and a [3] that ends the subscript. *)
Theorem correctHint_shape pre op body post payload :
  op ∈ hintOperators ->
  hint_subscript post body payload ->
  starts_no_match hintRegex pre (op ++ "_{" ++ body ++ "}" ++ post) ->
  correctHint (pre ++ op ++ "_{" ++ body ++ "}" ++ post)
  = Normal (op ++ "\{" ++ trim payload ++ "\}")%string.
Proof.
  intros Hop Hbody Hfirst.
  destruct (hintRegex_match_subscript op body post payload Hop Hbody)
    as (caps & Hm & H1 & H6).
  unfold correctHint, exec. rewrite exec_from_skip.
  - rewrite (exec_from_here _ _ _ _ _ Hm). cbn [m_caps]. rewrite H1.
    destruct (truthy (capture caps 6)).
    + by rewrite H6.
    + destruct H6 as (g & -> & ->). done.
  - intros pre1 pre2 -> Hne.
    destruct (match_at hintRegex (pre2 ++ _)) as [[s' caps']|] eqn:H; [|done].
    apply match_at_sound in H. by destruct (Hfirst pre1 pre2 eq_refl Hne s' caps').
Qed.

Lemma set_form_plain g opt3 post :
  ~ occurs "\}" g ->
  forall g1 g2, g = (g1 ++ g2)%string ->
                g1 <> EmptyString -> g2 <> EmptyString ->
                ~ set_closes (g2 ++ "\}" ++ opt3 ++ "}" ++ post).
Proof.
  intros Hno g1 g2 -> _ Hg2 [rest Hrest].
  assert (Hstart : exists rest', (g2 ++ "\}" ++ opt3 ++ "}" ++ post
                                  = "\}" ++ rest')%string).
  { destruct Hrest as [H|H];
      [exists ("}" ++ rest)%string|exists ("3}" ++ rest)%string]; exact H. }
  destruct Hstart as [rest' Hstart].
  destruct g2 as [|c1 [|c2 g2]]; [done| |].
  - cbn in Hstart. by injection Hstart.
  - cbn in Hstart. injection Hstart as -> -> _.
    destruct Hno. by exists g1, g2.
Qed.

(** * More on the comma replacement *)

Lemma pattern_found_Lit l s : pattern_found (Lit l) s <-> occurs l s.
Proof.
  split.
  - intros (pre & t & s' & caps & -> & [-> _]). by exists pre, s'.
  - intros (pre & post & ->). by exists pre, (l ++ post)%string, post, [].
Qed.

Lemma comma_replaced_length s t :
  comma_replaced s t ->
  (String.length t <= String.length s)%nat
  /\ (occurs " COMMA " s -> (String.length t < String.length s)%nat).
Proof.
  induction 1 as [|s t H [IH1 IH2]|c s t Hc H [IH1 IH2]].
  - split; [done|]. intros (pre & post & Hs). by destruct pre.
  - cbn. split; [lia|]. intros _. lia.
  - cbn. split; [lia|]. intros (pre & post & Hs).
    destruct pre as [|c' pre]; cbn in Hs.
    + by destruct (Hc post).
    + injection Hs as -> ->. assert (occurs " COMMA " (pre ++ " COMMA " ++ post))
        by (by exists pre, post). specialize (IH2 H0). lia.
Qed.

(** X11. The comma replacement never makes the expression longer, and it
    returns the expression as it is exactly when the expression holds no
    [COMMA] with a space on either side. *)
Theorem replaceComma_unchanged_iff latexExpression :
  (String.length (replaceComma latexExpression)
   <= String.length latexExpression)%nat
  /\ (replaceComma latexExpression = latexExpression
      <-> ~ occurs " COMMA " latexExpression).
Proof.
  pose proof (comma_replaced_length _ _ (replaceComma_spec latexExpression))
    as [Hle Hlt].
  split; [done|]. split.
  - intros Heq Hocc. specialize (Hlt Hocc). rewrite Heq in Hlt. lia.
  - intros Hno. apply replace_all_not_found.
    unfold commaRegex. by intros ?%pattern_found_Lit.
Qed.

(** * More on the commands and the handler *)

Lemma ToString_digits n : string_forall is_digit (ToString n) = true.
Proof.
  unfold ToString. induction (N.to_uint n) as [|d IH|d IH|d IH|d IH|d IH|d IH|d IH|d IH|d IH|d IH];
    cbn [NilEmpty.string_of_uint string_forall]; [done|..]; by rewrite IH.
Qed.

Lemma digits_before_dot d1 d2 r1 r2 :
  string_forall is_digit d1 = true -> string_forall is_digit d2 = true ->
  (d1 ++ String "." r1 = d2 ++ String "." r2)%string -> d1 = d2.
Proof.
  revert d2. induction d1 as [|c d1 IH]; intros d2 H1 H2 Heq.
  - destruct d2 as [|c d2]; [done|]. cbn in Heq. injection Heq as <- _.
    cbn in H2. done.
  - destruct d2 as [|c' d2]; cbn in Heq.
    + injection Heq as -> _. cbn in H1. done.
    + injection Heq as -> Heq. f_equal.
      cbn [string_forall] in H1, H2.
      apply andb_prop in H1 as [_ H1]. apply andb_prop in H2 as [_ H2].
      by apply IH.
Qed.

Lemma string_app_inv_head (a x y : string) : (a ++ x = a ++ y)%string -> x = y.
Proof. induction a as [|c a IH]; cbn; [done|]. intros [= H]. by apply IH. Qed.

(** X12. The commands of distinct documents are distinct, whatever [PATH]
    is: the command determines the number of its document, so two documents
    of a batch never share their input and output files. *)
Theorem seshatCommand_distinct PATH numbers :
  (forall n m, seshatCommand PATH n = seshatCommand PATH m -> n = m)
  /\ List.length (buildSeshatCommands PATH numbers) = List.length numbers
  /\ (NoDup numbers -> NoDup (buildSeshatCommands PATH numbers)).
Proof.
  assert (Hinj : forall n m,
             seshatCommand PATH n = seshatCommand PATH m -> n = m).
  { intros n m H. unfold seshatCommand in H.
    do 3 apply string_app_inv_head in H.
    apply ToString_inj.
    eapply digits_before_dot; [apply ToString_digits..|exact H]. }
  split; [exact Hinj|]. unfold buildSeshatCommands.
  split; [apply length_map|]. intros Hnd.
  apply (NoDup_fmap_2_strong (seshatCommand PATH)); [|done].
  intros n m _ _. apply Hinj.
Qed.

Lemma promise_all_inv {A} (ps : list (completion A)) rs :
  promise_all ps = Normal rs -> ps = map Normal rs.
Proof.
  revert rs. induction ps as [|p ps IH]; intros rs; cbn [promise_all].
  - by intros [= <-].
  - destruct p as [a|e]; cbn [bind]; [|done].
    destruct (promise_all ps) as [rs'|e]; cbn [bind]; [|done].
    intros [= <-]. cbn. f_equal. by apply IH.
Qed.

Lemma extractLatexExpression_occurs input e :
  extractLatexExpression input = Normal e -> occurs "LaTeX:" input.
Proof.
  unfold extractLatexExpression.
  destruct (exec latexRegex input) as [m|] eqn:Hm; [|done]. intros _.
  apply exec_from_sound in Hm as (pre & t & -> & Ht).
  apply match_at_sound, latexRegex_matches in Ht as [[rest ->] _].
  by exists pre, rest.
Qed.

Section HandlerConverse.
Context {TP GP : Type}.
Variable PATH : string.
Variable seshat : string -> ExecResult.
Variable extractAllInformation :
  list N -> completion (jsobj (InkML TP GP string)).
Variable createFileFromInfo :
  jsobj (InkML TP GP (option string)) -> completion unit.

Local Abbreviation command := (seshatCommand PATH).
Local Abbreviation run := (recognize seshat).
Local Abbreviation handle :=
  (handleGet PATH seshat extractAllInformation createFileFromInfo).
Local Abbreviation assemble :=
  (assembleSingleInkML extractAllInformation createFileFromInfo).

Lemma recognize_Normal cmd expr :
  run cmd = Normal expr ->
  exists stdout, seshat cmd = ExecDone stdout "" /\ occurs "LaTeX:" stdout.
Proof.
  unfold recognize. destruct (seshat cmd) as [|stdout stderr]; [done|].
  destruct stderr; [|done].
  destruct (extractLatexExpression stdout) as [e|] eqn:He; [|done].
  intros _. exists stdout. split; [done|]. by eapply extractLatexExpression_occurs.
Qed.

(** X13. Results are sent only for a clean batch: when the handler
    answers with a result list, the list has one entry per input number,
    every invocation answered with an empty error channel and an output
    that has the [LaTeX:] marker, and the merge step completed. *)
Theorem handleGet_sent_only_if numbers results :
  handle numbers = Sent results ->
  List.length results = List.length numbers
  /\ (forall number, number ∈ numbers -> invocation_answers PATH seshat number)
  /\ assemble numbers = Normal tt.
Proof.
  unfold handleGet, handleGet_try, buildSeshatCommands.
  destruct (promise_all (map run (map command numbers))) as [exprs|] eqn:Hall;
    cbn [bind]; [|done].
  destruct (normalize exprs) as [out|] eqn:Hnorm; cbn [bind]; [|done].
  destruct (assemble numbers) as [[]|] eqn:Hasm; cbn [bind]; [|done].
  intros [= <-]. apply promise_all_inv in Hall. split_and!; [| |done].
  - rewrite (normalize_length _ _ Hnorm).
    apply (f_equal (@List.length _)) in Hall. by rewrite !length_map in Hall.
  - intros number [i Hi]%list_elem_of_lookup.
    apply (f_equal (fun l => l !! i)) in Hall.
    rewrite !list_lookup_fmap, Hi in Hall. cbn in Hall.
    symmetry in Hall. apply fmap_Some in Hall as (expr & _ & Hrun).
    by eapply recognize_Normal.
Qed.

(** X14. A failure of the merge step turns the whole request into the
    generic failure, also when every expression was recognized: the
    results computed so far are not sent. *)
Theorem handleGet_merge_failure numbers e :
  assembleSingleInkML extractAllInformation createFileFromInfo numbers
  = Throw e ->
  handleGet PATH seshat extractAllInformation createFileFromInfo numbers
  = Status500 "Internal Server Error".
Proof.
  intros Hasm. unfold handleGet, handleGet_try.
  destruct (promise_all _) as [exprs|]; cbn [bind]; [|done].
  destruct (normalize exprs) as [out|]; cbn [bind]; [|done].
  by rewrite Hasm.
Qed.

End HandlerConverse.

(** * The MathML rewriting helpers *)

(** * The MathML rewriting helpers *)

Example modifyMathTag_sample :
  modifyMathTag sample_math
  = (mkMathTag
       (Some [mkRow (Some ["="]) (Some ["x"; "}"])
                    (Some [mkSubTag None;
                           mkSubTag (Some [mkInnerRow (Some ["{"])
                                                      (Some ["i"; "}"])])]);
              mkRow (Some ["+"]) (Some ["3"]) None]),
     Normal tt).
Proof. by vm_compute. Qed.

Lemma modifyInnerRow_completion mrowTag :
  (modifyInnerRow mrowTag).2
  = match inner_mo mrowTag, inner_mn mrowTag with
    | Some _, Some _ => Normal tt
    | _, _ => Throw TypeError
    end.
Proof.
  unfold modifyInnerRow. destruct (inner_mo mrowTag); [|done].
  by destruct (inner_mn mrowTag).
Qed.

Lemma modifyFirstSub_completion msubTag :
  (modifyFirstSub msubTag).2
  = if subscript_ready msubTag then Normal tt else Throw TypeError.
Proof.
  induction msubTag as [|subTag rest IH]; cbn [modifyFirstSub subscript_ready]; [done|].
  destruct (sub_mrow subTag) as [[|mrowTag others]|].
  - done.
  - pose proof (modifyInnerRow_completion mrowTag) as H.
    destruct (modifyInnerRow mrowTag) as [mrowTag' c]. cbn [snd] in *.
    rewrite H. by destruct (inner_mo mrowTag), (inner_mn mrowTag).
  - destruct (modifyFirstSub rest) as [rest' c]. exact IH.
Qed.

Lemma modifyMsubTag_spec mrowTag :
  mo (modifyMsubTag mrowTag).1 = mo mrowTag
  /\ mn (modifyMsubTag mrowTag).1 = mn mrowTag
  /\ (modifyMsubTag mrowTag).2
     = if row_ready mrowTag then Normal tt else Throw TypeError.
Proof.
  unfold modifyMsubTag, row_ready. destruct (msub mrowTag) as [msubTag|]; [|done].
  pose proof (modifyFirstSub_completion msubTag) as H.
  by destruct (modifyFirstSub msubTag) as [msubTag' c].
Qed.

Lemma last_set_last v a : a <> [] -> last (set_last v a) = Some v.
Proof.
  induction a as [|x [|y a] IH]; [done|done|]. intros _.
  change (set_last v (x :: y :: a)) with (x :: set_last v (y :: a)).
  destruct (set_last v (y :: a)) as [|z r] eqn:Hs.
  - by destruct a.
  - cbn. rewrite <- Hs. rewrite <- (IH ltac:(done)). by rewrite Hs.
Qed.

Lemma modifyRow_spec mrowTag :
  closesWith3 mrowTag = true ->
  mo (modifyRow mrowTag).1 = mo mrowTag
  /\ mn (modifyRow mrowTag).1 = option_map (set_last "}") (mn mrowTag)
  /\ closesWith3 (modifyRow mrowTag).1 = false
  /\ (modifyRow mrowTag).2
     = if row_ready mrowTag then Normal tt else Throw TypeError.
Proof.
  intros Hg. unfold modifyRow.
  destruct (modifyMsubTag_spec
              (mkRow (option_map (set_first "=") (mo mrowTag))
                     (option_map (set_last "}") (mn mrowTag)) (msub mrowTag)))
    as (Hmo & Hmn & Hc).
  cbn [mo mn] in Hmo, Hmn. unfold closesWith3 in *.
  rewrite Hmo, Hmn.
  destruct (mo mrowTag) as [[|op ops]|]; [done| |done].
  destruct (mn mrowTag) as [mnTag|]; [|done].
  apply andb_prop in Hg as [Hop Hlast]. apply String.eqb_eq in Hop. subst op.
  split; [done|]. split; [done|]. split; [|exact Hc].
  cbn [option_map set_first]. unfold last_element in *.
  rewrite last_set_last; [done|]. by destruct mnTag.
Qed.

Lemma modifyRows_skip mrowTags :
  Forall (fun r => closesWith3 r = false) mrowTags ->
  modifyRows mrowTags = (mrowTags, Normal tt).
Proof.
  induction 1 as [|r rs Hr _ IH]; [done|].
  cbn [modifyRows]. by rewrite Hr, IH.
Qed.

(** X15. The loop of [modifyMathTag] neither adds nor removes a row,
    never changes an operator of a row, and returns every row that fails
    its test (first operator [=], last number [3]) as it was. *)
Theorem modifyRows_untouched mrowTags :
  List.length (modifyRows mrowTags).1 = List.length mrowTags
  /\ map mo (modifyRows mrowTags).1 = map mo mrowTags
  /\ forall i mrowTag,
       mrowTags !! i = Some mrowTag -> closesWith3 mrowTag = false ->
       (modifyRows mrowTags).1 !! i = Some mrowTag.
Proof.
  induction mrowTags as [|r rs (IHlen & IHmo & IHrow)]; [done|].
  cbn [modifyRows]. destruct (closesWith3 r) eqn:Hg.
  - destruct (modifyRow_spec r Hg) as (Hmo & _ & _ & _).
    destruct (modifyRow r) as [r' [[]|e]]; cbn [fst] in Hmo.
    + destruct (modifyRows rs) as [rs' c]. cbn [fst] in *.
      split; [cbn; by rewrite IHlen|]. split; [cbn; by rewrite Hmo, IHmo|].
      intros [|i] row; cbn; [intros [= <-]; congruence|apply IHrow].
    + cbn [fst]. split; [done|]. split; [cbn; by rewrite Hmo|].
      intros [|i] row; cbn; [intros [= <-]; congruence|done].
  - destruct (modifyRows rs) as [rs' c]. cbn [fst] in *.
    split; [cbn; by rewrite IHlen|]. split; [cbn; by rewrite IHmo|].
    intros [|i] row; cbn; [done|apply IHrow].
Qed.

(** X16. [modifyMathTag] completes exactly when the element has rows and
    every row that passes the test has a subscript that can be rewritten
    (its first subscript child with rows has no first row, or one with both
    [mo] and [mn]); otherwise it throws a [TypeError]. *)
Theorem modifyMathTag_completion mathTag :
  (modifyMathTag mathTag).2
  = match mrow mathTag with
    | Some mrowTags =>
        if forallb (fun r => implb (closesWith3 r) (row_ready r)) mrowTags
        then Normal tt else Throw TypeError
    | None => Throw TypeError
    end.
Proof.
  unfold modifyMathTag. destruct (mrow mathTag) as [rows|]; [|done].
  assert (H : (modifyRows rows).2
              = if forallb (fun r => implb (closesWith3 r) (row_ready r)) rows
                then Normal tt else Throw TypeError).
  { induction rows as [|r rs IH]; [done|]. cbn [modifyRows forallb].
    destruct (closesWith3 r) eqn:Hg; cbn [implb].
    - destruct (modifyRow_spec r Hg) as (_ & _ & _ & Hc).
      destruct (modifyRow r) as [r' c]. cbn [snd] in Hc. subst c.
      destruct (row_ready r); cbn [andb]; [|done].
      by destruct (modifyRows rs).
    - cbn [andb]. by destruct (modifyRows rs). }
  by destruct (modifyRows rows).
Qed.

(** X17. After a run that completes, every row that passed the test has
    its last number replaced by the closing brace and passes the test no
    more, so a second run changes nothing. *)
Theorem modifyMathTag_idempotent mathTag mathTag' :
  modifyMathTag mathTag = (mathTag', Normal tt) ->
  modifyMathTag mathTag' = (mathTag', Normal tt)
  /\ forall mrowTags mrowTags' i mrowTag,
       mrow mathTag = Some mrowTags -> mrow mathTag' = Some mrowTags' ->
       mrowTags !! i = Some mrowTag -> closesWith3 mrowTag = true ->
       exists mrowTag',
         mrowTags' !! i = Some mrowTag'
         /\ mn mrowTag' = option_map (set_last "}") (mn mrowTag).
Proof.
  unfold modifyMathTag at 1. destruct (mrow mathTag) as [rows|] eqn:Hrows; [|done].
  destruct (modifyRows rows) as [rows' c] eqn:Hrun. intros [= <- ->].
  assert (H : Forall (fun r => closesWith3 r = false) rows'
              /\ forall i row, rows !! i = Some row -> closesWith3 row = true ->
                   exists row', rows' !! i = Some row'
                     /\ mn row' = option_map (set_last "}") (mn row)).
  { clear Hrows. revert rows' Hrun.
    induction rows as [|r rs IH]; intros rows'; cbn [modifyRows].
    - intros [= <-]. split; [constructor|done].
    - destruct (closesWith3 r) eqn:Hg.
      + destruct (modifyRow_spec r Hg) as (_ & Hmn & Hg' & _).
        destruct (modifyRow r) as [r' [[]|e]]; [|done]. cbn [fst] in *.
        destruct (modifyRows rs) as [rs' c]. intros [= <- ->].
        destruct (IH rs' eq_refl) as [IH1 IH2]. split; [by constructor|].
        intros [|i] row; cbn; [|apply IH2]. intros [= <-] _. by exists r'.
      + destruct (modifyRows rs) as [rs' c]. intros [= <- ->].
        destruct (IH rs' eq_refl) as [IH1 IH2]. split; [by constructor|].
        intros [|i] row; cbn; [|apply IH2]. intros [= <-] ?. congruence. }
  destruct H as [Hskip Hrow]. split.
  - unfold modifyMathTag. cbn [mrow]. by rewrite modifyRows_skip.
  - intros rows0 rows0' i row [= <-] [= <-]. apply Hrow.
Qed.

(** X18. A throw comes after part of the work is done: at the first row
    that passes the test and whose subscript cannot be rewritten, the last
    number of that row is already the closing brace when the [TypeError]
    is thrown, and the rows after it are as they were. *)
Theorem modifyRows_throw_partial before mrowTag after :
  forallb (fun r => implb (closesWith3 r) (row_ready r)) before = true ->
  closesWith3 mrowTag = true -> row_ready mrowTag = false ->
  exists before' mrowTag',
    modifyRows (before ++ mrowTag :: after)
    = (before' ++ mrowTag' :: after, Throw TypeError)
    /\ List.length before' = List.length before
    /\ mn mrowTag' = option_map (set_last "}") (mn mrowTag).
Proof.
  intros Hbefore Hg Hready.
  induction before as [|r rs IH]; cbn [app modifyRows forallb] in *.
  - rewrite Hg. destruct (modifyRow_spec mrowTag Hg) as (_ & Hmn & _ & Hc).
    rewrite Hready in Hc. destruct (modifyRow mrowTag) as [r' c].
    cbn [fst snd] in *. subst c. by exists [], r'.
  - apply andb_prop in Hbefore as [Hr Hrs].
    destruct (IH Hrs) as (rs' & r' & Heq & Hlen & Hmn). rewrite Heq.
    destruct (closesWith3 r) eqn:Hgr.
    + destruct (modifyRow_spec r Hgr) as (_ & _ & _ & Hc).
      cbn [implb] in Hr. rewrite Hr in Hc.
      destruct (modifyRow r) as [r0 c]. cbn [snd] in Hc. subst c.
      exists (r0 :: rs'), r'. cbn. by rewrite Hlen.
    + exists (r :: rs'), r'. cbn. by rewrite Hlen.
Qed.

(** * The further properties on concrete inputs *)

Lemma unifier_group_order_witness :
  object_groups sample_batch
  /\ enumeration_order (traceGroups sample_document)
  /\ sample_batch !! 1%nat = Some ("2", sample_document)
  /\ exists doc',
       modifyIDsToUnique sample_batch !! 1%nat = Some ("2", doc')
       /\ List.length (traceGroups doc')
          = List.length (traceGroups sample_document)
       /\ forall i group data,
            traceGroups sample_document !! i = Some (group, data) ->
            traceGroups doc' !! i
            = Some (ToString (1 + N.of_nat (group_count (take 1 sample_batch))
                              + N.of_nat i),
                    rewriteRefs (traceIdChanges (traces sample_document)
                                                (traces doc')) data).
Proof.
  assert (Hkeys : NoDup ["0"; "1"]).
  { apply NoDup_cons. split; [|apply NoDup_singleton].
    intros H%list_elem_of_singleton. discriminate H. }
  assert (H1 : object_groups sample_batch).
  { unfold object_groups, sample_batch. repeat (apply Forall_cons; split);
      [exact Hkeys|exact Hkeys|apply Forall_nil_2]. }
  assert (H2 : enumeration_order (traceGroups sample_document)).
  { unfold enumeration_order. cbn. repeat constructor. }
  split; [exact H1|]. split; [exact H2|]. split; [reflexivity|].
  apply (unifier_group_order sample_batch 1 "2" sample_document H1 H2).
  reflexivity.
Defined.

Example unifier_group_order_sample :
  map fst (traceGroups (mkInkML (traces sample_document)
                                [("b", mkTraceGroup ["0"] tt);
                                 ("a", mkTraceGroup ["1"] tt)]))
  = ["b"; "a"]
  /\ modifyIDsToUnique
       [("1", mkInkML (traces sample_document)
                      [("b", mkTraceGroup ["0"] tt);
                       ("a", mkTraceGroup ["1"] tt)])]
     = [("1", mkInkML [mkTrace "1" "10 20, 11 21"; mkTrace "2" "30 40, 31 41"]
                      [("1", mkTraceGroup [Some "1"] tt);
                       ("2", mkTraceGroup [Some "2"] tt)])].
Proof. by vm_compute. Qed.

Lemma traceIdChanges_last_wins_witness :
  (id (mkTrace "0" "30 40") ∉ map id [mkTrace "1" "50 60"])
  /\ obj_get (traceIdChanges repeated_traces
                (assignUniqueTraceIDs repeated_traces 1).1) "0"
     = Some "2".
Proof.
  assert (H : id (mkTrace "0" "30 40") ∉ map id [mkTrace "1" "50 60"]).
  { cbn. intros H%list_elem_of_singleton. discriminate H. }
  split; [exact H|].
  exact (traceIdChanges_last_wins [mkTrace "0" "10 20"] [mkTrace "1" "50 60"]
           (mkTrace "0" "30 40") 1 H).
Defined.

Lemma extractLatexExpression_trimmed_line_witness :
  extractLatexExpression sample_output = Normal "a + b"
  /\ string_forall dot "a + b" = true /\ no_margin is_space "a + b".
Proof.
  assert (H : extractLatexExpression sample_output = Normal "a + b")
    by (vm_compute; reflexivity).
  split; [exact H|].
  exact (extractLatexExpression_trimmed_line sample_output "a + b" H).
Defined.

Lemma extractLatexExpression_first_marker_witness :
  ~ occurs "LaTeX:" ("Parsing...
" ++ "LaTeX")
  /\ string_forall is_space "   " = true
  /\ string_forall dot "a + b  " = true
  /\ (forall c, first_char ("a + b  " ++ "
Done") = Some c -> is_space c = false)
  /\ (forall c, first_char "
Done" = Some c -> dot c = false)
  /\ extractLatexExpression sample_output = Normal "a + b".
Proof.
  assert (H1 : ~ occurs "LaTeX:" ("Parsing...
" ++ "LaTeX")).
  { intros Hocc. apply includes_occurs in Hocc. vm_compute in Hocc.
    discriminate Hocc. }
  assert (H4 : forall c, first_char ("a + b  " ++ "
Done") = Some c -> is_space c = false).
  { intros c Hc. injection Hc as <-. reflexivity. }
  assert (H5 : forall c, first_char "
Done" = Some c -> dot c = false).
  { intros c Hc. injection Hc as <-. reflexivity. }
  split; [exact H1|]. split; [reflexivity|]. split; [reflexivity|].
  split; [exact H4|]. split; [exact H5|].
  exact (extractLatexExpression_first_marker "Parsing...
" "   " "a + b  " "
Done" H1 eq_refl eq_refl H4 H5).
Defined.

Lemma cleanup_unchanged_witness :
  ~ pattern_found underscoreRegex "x_{1} = a_{2}"
  /\ ~ pattern_found extraBracesRegex "x_{1} = a_{2}"
  /\ ~ pattern_found operatorUnderscoreRegex "x_{1} = a_{2}"
  /\ cleanup "x_{1} = a_{2}" = "x_{1} = a_{2}".
Proof.
  assert (H1 : ~ pattern_found underscoreRegex "x_{1} = a_{2}").
  { apply exec_None. vm_compute. reflexivity. }
  assert (H2 : ~ pattern_found extraBracesRegex "x_{1} = a_{2}").
  { apply exec_None. vm_compute. reflexivity. }
  assert (H3 : ~ pattern_found operatorUnderscoreRegex "x_{1} = a_{2}").
  { apply exec_None. vm_compute. reflexivity. }
  split; [exact H1|]. split; [exact H2|]. split; [exact H3|].
  exact (cleanup_unchanged "x_{1} = a_{2}" H1 H2 H3).
Defined.

Lemma correctHint_shape_witness :
  "\leq" ∈ hintOperators
  /\ hint_subscript " here" "\{ x , y \}3" " x , y "
  /\ starts_no_match hintRegex "see "
       ("\leq" ++ "_{" ++ "\{ x , y \}3" ++ "}" ++ " here")
  /\ correctHint "see \leq_{\{ x , y \}3} here" = Normal "\leq\{x , y\}".
Proof.
  assert (H1 : "\leq" ∈ hintOperators).
  { unfold hintOperators. do 3 apply list_elem_of_further. apply list_elem_of_here. }
  assert (H2 : hint_subscript " here" "\{ x , y \}3" " x , y ").
  { apply (set_form " here" " x , y " "3");
      [discriminate|reflexivity|by right|].
    apply set_form_plain. intros Hocc. apply includes_occurs in Hocc.
    vm_compute in Hocc. discriminate Hocc. }
  assert (H3 : starts_no_match hintRegex "see "
                 ("\leq" ++ "_{" ++ "\{ x , y \}3" ++ "}" ++ " here")).
  { intros pre1 pre2 Hsplit Hne s' caps Hm.
    apply match_at_complete in Hm. revert Hm.
    destruct pre1 as [|c1 [|c2 [|c3 [|c4 [|c5 pre1]]]]];
      cbn in Hsplit; simplify_eq; try done;
      vm_compute; intros [x Hx]; discriminate Hx. }
  split; [exact H1|]. split; [exact H2|]. split; [exact H3|].
  exact (correctHint_shape "see " "\leq" "\{ x , y \}3" " here" " x , y "
           H1 H2 H3).
Defined.

Example correctHint_sample :
  correctHint "see \leq_{\{ x , y \}3} here" = Normal "\leq\{x , y\}".
Proof. by vm_compute. Qed.

Lemma handleGet_sent_only_if_witness :
  handleGet "/opt/seshat" (quiet_seshat "LaTeX: x") no_documents write_ok [7; 8]
  = Sent ["x"; "x"]
  /\ List.length ["x"; "x"] = List.length [7; 8]
  /\ (forall number,
        number ∈ [7; 8] ->
        invocation_answers "/opt/seshat" (quiet_seshat "LaTeX: x") number)
  /\ assembleSingleInkML no_documents write_ok [7; 8] = Normal tt.
Proof.
  assert (H : handleGet "/opt/seshat" (quiet_seshat "LaTeX: x") no_documents
                write_ok [7; 8] = Sent ["x"; "x"])
    by (vm_compute; reflexivity).
  split; [exact H|].
  exact (handleGet_sent_only_if "/opt/seshat" (quiet_seshat "LaTeX: x")
           no_documents write_ok [7; 8] ["x"; "x"] H).
Defined.

Lemma handleGet_merge_failure_witness :
  assembleSingleInkML no_documents write_fails [7; 8] = Throw (Error "EACCES")
  /\ handleGet "/opt/seshat" (quiet_seshat "LaTeX: x") no_documents
       write_fails [7; 8]
     = Status500 "Internal Server Error".
Proof.
  assert (H : assembleSingleInkML no_documents write_fails [7; 8]
              = Throw (Error "EACCES")) by reflexivity.
  split; [exact H|].
  exact (handleGet_merge_failure "/opt/seshat" (quiet_seshat "LaTeX: x")
           no_documents write_fails [7; 8] (Error "EACCES") H).
Defined.

Lemma modifyMathTag_idempotent_witness :
  modifyMathTag sample_math = ((modifyMathTag sample_math).1, Normal tt)
  /\ modifyMathTag (modifyMathTag sample_math).1
     = ((modifyMathTag sample_math).1, Normal tt).
Proof.
  assert (H : modifyMathTag sample_math
              = ((modifyMathTag sample_math).1, Normal tt))
    by (vm_compute; reflexivity).
  split; [exact H|].
  exact (proj1 (modifyMathTag_idempotent sample_math
                  (modifyMathTag sample_math).1 H)).
Defined.

Lemma modifyRows_throw_partial_witness :
  forallb (fun r => implb (closesWith3 r) (row_ready r)) [later_row] = true
  /\ closesWith3 broken_row = true
  /\ row_ready broken_row = false
  /\ exists before' mrowTag',
       modifyRows ([later_row] ++ broken_row :: [later_row])
       = (before' ++ mrowTag' :: [later_row], Throw TypeError)
       /\ List.length before' = List.length [later_row]
       /\ mn mrowTag' = option_map (set_last "}") (mn broken_row).
Proof.
  split; [reflexivity|]. split; [reflexivity|]. split; [reflexivity|].
  exact (modifyRows_throw_partial [later_row] broken_row [later_row]
           eq_refl eq_refl eq_refl).
Defined.

Example modifyRows_throw_sample :
  modifyRows [later_row; broken_row; later_row]
  = ([mkRow (Some ["="]) (Some ["y"; "}"]) None;
      mkRow (Some ["="]) (Some ["x"; "}"])
            (Some [mkSubTag (Some [mkInnerRow (Some ["{"]) None])]);
      later_row],
     Throw TypeError).
Proof. by vm_compute. Qed.
